(** * HostApp/script.js: the host game state and its URL-fragment codec

    A shallow embedding of the class [hostGame] of [HostApp/script.js]:
    the question list, the game name, the validation of [qListAdd], the
    [splice] of [qListDelete], and the pair [#hashState] / [#unhashState]
    that keeps [window.location.hash] in step with the state.  The file
    exists in two revisions that differ, for the class, in
    [#unhashState] only; the second revision is embedded at top level,
    the [#unhashState] of the first in the module [Rev1].

    JavaScript strings are sequences of UTF-16 code units; they are
    modelled as lists of code units, each a number in [N].  A method is
    a function on the state that ends normally or by throwing.
    [JSON.stringify] and [JSON.parse] are embedded as a serializer and a
    recursive-descent parser.  The two library calls
    [LZString.compressToEncodedURIComponent] and
    [LZString.decompressFromEncodedURIComponent] belong to a third-party
    library: they are operations of a type class, with the contract the
    program relies on stated as a second class. *)

From Stdlib Require Import List NArith ZArith Arith Bool Ascii String Lia.
From Stdlib Require Import DecimalString.
Import ListNotations.

Set Warnings "-register-all".
Local Open Scope list_scope.

(* ================================================================= *)
(** ** Strings as code units *)

Definition jsstring := list N.

(** A literal of the source, written as a Rocq string. *)
Definition str (s : string) : jsstring :=
  map N_of_ascii (list_ascii_of_string s).

Fixpoint jsstring_eqb (a b : jsstring) : bool :=
  match a, b with
  | [], [] => true
  | c :: a', d :: b' => N.eqb c d && jsstring_eqb a' b'
  | _, _ => false
  end.

(** [String.prototype.slice(1)]: the string without its first code unit. *)
Definition slice1 (s : jsstring) : jsstring := tl s.

(* ================================================================= *)
(** ** White space, [trim] and [split(/\s+/)] *)

(** The code points that [String.prototype.trim] strips and that the
    regular expression class [\s] matches: WhiteSpace and LineTerminator
    of ECMA-262 (TAB, LF, VT, FF, CR, SP, NBSP, the space separators
    U+1680, U+2000..U+200A, U+202F, U+205F, U+3000, the separators U+2028
    and U+2029, and the byte order mark U+FEFF). *)
Definition is_ws (c : N) : bool :=
  ((9 <=? c) && (c <=? 13)
   || (c =? 32) || (c =? 160) || (c =? 5760)
   || ((8192 <=? c) && (c <=? 8202))
   || (c =? 8232) || (c =? 8233) || (c =? 8239) || (c =? 8287)
   || (c =? 12288) || (c =? 65279))%N.

Fixpoint trimStart (s : jsstring) : jsstring :=
  match s with
  | [] => []
  | c :: r => if is_ws c then trimStart r else s
  end.

Definition trimEnd (s : jsstring) : jsstring := rev (trimStart (rev s)).

(** [item.trim()] *)
Definition trim (s : jsstring) : jsstring := trimEnd (trimStart s).

(** [s.split(/\s+/)]: the pieces of [s] between the maximal runs of white
    space.  [insep] tells that the previous code unit belonged to a
    separator, [cur] holds the piece being read, last unit first.  A
    separator at either end of [s] leaves an empty piece there, and the
    empty string splits into one empty piece, as in JavaScript. *)
Fixpoint split_go (insep : bool) (cur : jsstring) (s : jsstring)
  : list jsstring :=
  match s with
  | [] => [rev cur]
  | c :: r =>
      if is_ws c then
        if insep then split_go true cur r
        else rev cur :: split_go true [] r
      else split_go false (c :: cur) r
  end.

Definition split_ws (s : jsstring) : list jsstring := split_go false [] s.

(** [item.trim().split(/\s+/).length] *)
Definition wordCount (item : jsstring) : nat :=
  List.length (split_ws (trim item)).

(** The words of a string as the specification names them: its maximal
    runs of code units that are not white space, in order.  This
    definition follows the words of the specification and is compared
    with [split_ws] in [split_trim_words]. *)
Fixpoint words_go (cur : jsstring) (s : jsstring) : list jsstring :=
  match s with
  | [] => match cur with [] => [] | _ => [rev cur] end
  | c :: r =>
      if is_ws c then
        match cur with
        | [] => words_go [] r
        | _ => rev cur :: words_go [] r
        end
      else words_go (c :: cur) r
  end.

Definition whitespace_delimited_words (s : jsstring) : list jsstring :=
  words_go [] s.

(** A string is blank when every code unit of it is white space. *)
Definition blank (s : jsstring) : bool := forallb is_ws s.

(* ================================================================= *)
(** ** Values and completions *)

(** The values the program handles: what [JSON.parse] can return, and
    [undefined].  A number is kept as the numeric literal it was read
    from; the program never computes with a number it has parsed. *)
Inductive JSValue : Type :=
| JSUndefined
| JSNull
| JSBool (b : bool)
| JSNumber (literal : jsstring)
| JSString (s : jsstring)
| JSArray (elements : list JSValue)
| JSObject (properties : list (jsstring * JSValue)).

Inductive JSError : Type := SyntaxError | TypeError.

(** The outcome of evaluating JavaScript code: a value, or an exception
    on its way to the nearest [catch]. *)
Inductive completion (A : Type) : Type :=
| Normal (a : A)
| Throw (e : JSError).

Arguments Normal {A} a.
Arguments Throw {A} e.

(** [obj.title] and [obj.list]: reading a property that no built-in
    prototype defines.  On [null] and [undefined] the read throws a
    [TypeError]; on an object it returns the own property, or [undefined]
    when there is none; on every other value it returns [undefined]. *)
Fixpoint own_property (key : jsstring) (ps : list (jsstring * JSValue))
  : JSValue :=
  match ps with
  | [] => JSUndefined
  | (k, v) :: r => if jsstring_eqb k key then v else own_property key r
  end.

Definition get_property (key : jsstring) (v : JSValue) : completion JSValue :=
  match v with
  | JSUndefined | JSNull => Throw TypeError
  | JSObject ps => Normal (own_property key ps)
  | _ => Normal JSUndefined
  end.

(* ================================================================= *)
(** ** [JSON.stringify] *)

Local Open Scope N_scope.

(** A hexadecimal digit in lower case, as [JSON.stringify] writes it. *)
Definition hex_digit (d : N) : N := if d <? 10 then 48 + d else 87 + d.

(** [\uXXXX] *)
Definition UnicodeEscape (c : N) : jsstring :=
  [92; 117; hex_digit (c / 4096 mod 16); hex_digit (c / 256 mod 16);
   hex_digit (c / 16 mod 16); hex_digit (c mod 16)].

Definition is_lead_surrogate (c : N) : bool := (55296 <=? c) && (c <=? 56319).
Definition is_trail_surrogate (c : N) : bool := (56320 <=? c) && (c <=? 57343).
Definition is_surrogate (c : N) : bool := (55296 <=? c) && (c <=? 57343).

(** One code point that is not part of a surrogate pair. *)
Definition quote_unit (c : N) : jsstring :=
  if c =? 8 then [92; 98]
  else if c =? 9 then [92; 116]
  else if c =? 10 then [92; 110]
  else if c =? 12 then [92; 102]
  else if c =? 13 then [92; 114]
  else if c =? 34 then [92; 34]
  else if c =? 92 then [92; 92]
  else if (c <? 32) || is_surrogate c then UnicodeEscape c
  else [c].

(** The characters between the quotes of [QuoteJSONString]: the string is
    read code point by code point, a lead surrogate followed by a trail
    surrogate being one code point, written as it is. *)
Fixpoint quote_chars (s : jsstring) : jsstring :=
  match s with
  | [] => []
  | c :: t =>
      if is_lead_surrogate c then
        match t with
        | d :: r =>
            if is_trail_surrogate d then c :: d :: quote_chars r
            else quote_unit c ++ quote_chars t
        | [] => quote_unit c
        end
      else quote_unit c ++ quote_chars t
  end.

Definition QuoteJSONString (s : jsstring) : jsstring :=
  34 :: quote_chars s ++ [34].

(** [xs.join(",")] *)
Fixpoint join_comma (xs : list jsstring) : jsstring :=
  match xs with
  | [] => []
  | [x] => x
  | x :: r => x ++ 44 :: join_comma r
  end.

Section Stringify.
(** The text [JSON.stringify] writes for the double a numeric literal
    denotes; doubles are not modelled. *)
Variable NumberToJSON : jsstring -> jsstring.

(** [SerializeJSONProperty], without replacer and without indentation;
    [None] stands for [undefined].  An array element that serializes to
    [undefined] is written [null]; an object property that does is left
    out.  No value of [JSValue] is callable, so no [toJSON] is called. *)
Fixpoint SerializeJSONProperty (v : JSValue) : option jsstring :=
  match v with
  | JSUndefined => None
  | JSNull => Some (str "null")
  | JSBool true => Some (str "true")
  | JSBool false => Some (str "false")
  | JSNumber l => Some (NumberToJSON l)
  | JSString s => Some (QuoteJSONString s)
  | JSArray es =>
      Some (91 :: join_comma
              (map (fun e => match SerializeJSONProperty e with
                             | Some t => t
                             | None => str "null"
                             end) es) ++ [93])
  | JSObject ps =>
      Some (123 :: join_comma
              (flat_map (fun kv => match SerializeJSONProperty (snd kv) with
                                   | Some t => [QuoteJSONString (fst kv) ++ 58 :: t]
                                   | None => []
                                   end) ps) ++ [125])
  end.

(** [JSON.stringify({ title: t, list: l })] *)
Definition JSON_stringify_state (t l : JSValue) : jsstring :=
  match SerializeJSONProperty
          (JSObject [(str "title", t); (str "list", l)]) with
  | Some s => s
  | None => []
  end.
End Stringify.

(* ================================================================= *)
(** ** [JSON.parse] *)

(** JSON white space: space, TAB, LF and CR. *)
Definition json_ws (c : N) : bool :=
  (c =? 32) || (c =? 9) || (c =? 10) || (c =? 13).

Fixpoint skip_ws (s : jsstring) : jsstring :=
  match s with
  | [] => []
  | c :: r => if json_ws c then skip_ws r else s
  end.

Definition is_digit (c : N) : bool := (48 <=? c) && (c <=? 57).

Definition hex_value (c : N) : option N :=
  if is_digit c then Some (c - 48)
  else if (97 <=? c) && (c <=? 102) then Some (c - 87)
  else if (65 <=? c) && (c <=? 70) then Some (c - 55)
  else None.

Definition hex4 (a b c d : N) : option N :=
  match hex_value a, hex_value b, hex_value c, hex_value d with
  | Some x, Some y, Some z, Some w => Some (((x * 16 + y) * 16 + z) * 16 + w)
  | _, _, _, _ => None
  end.

(** The character a two-character escape stands for. *)
Definition escape_char (e : N) : option N :=
  if e =? 34 then Some 34
  else if e =? 92 then Some 92
  else if e =? 47 then Some 47
  else if e =? 98 then Some 8
  else if e =? 102 then Some 12
  else if e =? 110 then Some 10
  else if e =? 114 then Some 13
  else if e =? 116 then Some 9
  else None.

Definition push_char (c : N) (p : option (jsstring * jsstring))
  : option (jsstring * jsstring) :=
  match p with
  | Some (t, rest) => Some (c :: t, rest)
  | None => None
  end.

(** The characters of a string literal after its opening quote, up to
    and including the closing quote; returns the string and the text that
    follows.  A control character below U+0020 is not allowed unescaped. *)
Fixpoint parse_chars (s : jsstring) : option (jsstring * jsstring) :=
  match s with
  | [] => None
  | c :: r =>
      if c =? 34 then Some ([], r)
      else if c =? 92 then
        match r with
        | [] => None
        | e :: r1 =>
            if e =? 117 then
              match r1 with
              | h1 :: h2 :: h3 :: h4 :: r2 =>
                  match hex4 h1 h2 h3 h4 with
                  | Some u => push_char u (parse_chars r2)
                  | None => None
                  end
              | _ => None
              end
            else
              match escape_char e with
              | Some u => push_char u (parse_chars r1)
              | None => None
              end
        end
      else if c <? 32 then None
      else push_char c (parse_chars r)
  end.

Fixpoint take_digits (s : jsstring) : jsstring * jsstring :=
  match s with
  | [] => ([], [])
  | c :: r =>
      if is_digit c then let (ds, r') := take_digits r in (c :: ds, r')
      else ([], s)
  end.

(** The integer part: [0], or a digit from 1 to 9 and more digits. *)
Definition parse_int (s : jsstring) : option (jsstring * jsstring) :=
  match s with
  | [] => None
  | c :: r =>
      if c =? 48 then Some ([48], r)
      else if is_digit c then let (ds, r') := take_digits r in Some (c :: ds, r')
      else None
  end.

(** The optional fraction: a point and at least one digit. *)
Definition parse_frac (s : jsstring) : option (jsstring * jsstring) :=
  match s with
  | [] => Some ([], [])
  | c :: r =>
      if c =? 46 then
        let (ds, r') := take_digits r in
        match ds with [] => None | _ => Some (c :: ds, r') end
      else Some ([], s)
  end.

(** The optional exponent: [e] or [E], an optional sign, at least one
    digit. *)
Definition parse_exp (s : jsstring) : option (jsstring * jsstring) :=
  match s with
  | [] => Some ([], [])
  | c :: r =>
      if (c =? 101) || (c =? 69) then
        let (sign, r1) :=
          match r with
          | [] => ([], [])
          | d :: r' => if (d =? 43) || (d =? 45) then ([d], r') else ([], r)
          end in
        let (ds, r2) := take_digits r1 in
        match ds with [] => None | _ => Some (c :: sign ++ ds, r2) end
      else Some ([], s)
  end.

Definition parse_number (s : jsstring) : option (jsstring * jsstring) :=
  let (sign, s1) :=
    match s with
    | [] => ([], [])
    | c :: r => if c =? 45 then ([c], r) else ([], s)
    end in
  match parse_int s1 with
  | None => None
  | Some (i, s2) =>
      match parse_frac s2 with
      | None => None
      | Some (f, s3) =>
          match parse_exp s3 with
          | None => None
          | Some (e, s4) => Some (sign ++ i ++ f ++ e, s4)
          end
      end
  end.

Fixpoint strip_prefix (p s : jsstring) : option jsstring :=
  match p, s with
  | [], _ => Some s
  | a :: p', b :: s' => if a =? b then strip_prefix p' s' else None
  | _ :: _, [] => None
  end.

(** The array index a property key denotes, if any: a canonical decimal
    numeral below 2^32 - 1.  Such keys come first, in numeric order, among
    the properties of an object. *)
Definition array_index (k : jsstring) : option N :=
  match k with
  | [] => None
  | c :: r =>
      if forallb is_digit k && (negb (c =? 48) || match r with [] => true | _ => false end)
      then
        let n := fold_left (fun a d => a * 10 + (d - 48)) k 0 in
        if n <? 4294967295 then Some n else None
      else None
  end.

Fixpoint has_property (k : jsstring) (ps : list (jsstring * JSValue)) : bool :=
  match ps with
  | [] => false
  | (k', _) :: r => jsstring_eqb k' k || has_property k r
  end.

Fixpoint replace_property (k : jsstring) (v : JSValue)
  (ps : list (jsstring * JSValue)) : list (jsstring * JSValue) :=
  match ps with
  | [] => []
  | (k', v') :: r =>
      if jsstring_eqb k' k then (k', v) :: r
      else (k', v') :: replace_property k v r
  end.

Fixpoint insert_index (n : N) (k : jsstring) (v : JSValue)
  (ps : list (jsstring * JSValue)) : list (jsstring * JSValue) :=
  match ps with
  | [] => [(k, v)]
  | (k', v') :: r =>
      match array_index k' with
      | Some m => if m <? n then (k', v') :: insert_index n k v r
                  else (k, v) :: ps
      | None => (k, v) :: ps
      end
  end.

(** [CreateDataProperty] on an object under construction: a key already
    present keeps its place and takes the new value; a new array index
    goes among the array indices, in numeric order; any other new key goes
    last. *)
Definition define_property (k : jsstring) (v : JSValue)
  (ps : list (jsstring * JSValue)) : list (jsstring * JSValue) :=
  if has_property k ps then replace_property k v ps
  else match array_index k with
       | Some n => insert_index n k v ps
       | None => ps ++ [(k, v)]
       end.

Definition make_object (members : list (jsstring * JSValue)) : JSValue :=
  JSObject (fold_left (fun o kv => define_property (fst kv) (snd kv) o)
              members []).

(** The parser is a recursive descent over three mutually recursive
    functions.  Each is written here as one step that takes the
    functions it calls as arguments; [parse_value] and its two companions
    below tie the knot.

    [value_step] reads a JSON value at the head of [s], after optional
    white space, and returns the value and the text that follows it. *)
Definition value_step
  (elements : jsstring -> option (list JSValue * jsstring))
  (members : jsstring -> option (list (jsstring * JSValue) * jsstring))
  (s : jsstring) : option (JSValue * jsstring) :=
  match skip_ws s with
  | [] => None
  | c :: r =>
      if c =? 34 then
        match parse_chars r with
        | Some (t, r') => Some (JSString t, r')
        | None => None
        end
      else if c =? 91 then
        match skip_ws r with
        | [] => None
        | d :: r' =>
            if d =? 93 then Some (JSArray [], r')
            else match elements r with
                 | Some (es, r'') => Some (JSArray es, r'')
                 | None => None
                 end
        end
      else if c =? 123 then
        match skip_ws r with
        | [] => None
        | d :: r' =>
            if d =? 125 then Some (JSObject [], r')
            else match members r with
                 | Some (ms, r'') => Some (make_object ms, r'')
                 | None => None
                 end
        end
      else if c =? 116 then
        match strip_prefix (str "rue") r with
        | Some r' => Some (JSBool true, r')
        | None => None
        end
      else if c =? 102 then
        match strip_prefix (str "alse") r with
        | Some r' => Some (JSBool false, r')
        | None => None
        end
      else if c =? 110 then
        match strip_prefix (str "ull") r with
        | Some r' => Some (JSNull, r')
        | None => None
        end
      else
        match parse_number (c :: r) with
        | Some (l, r') => Some (JSNumber l, r')
        | None => None
        end
  end.

(** [elements_step] reads the elements of an array, from the first one
    up to and including the closing bracket. *)
Definition elements_step
  (value : jsstring -> option (JSValue * jsstring))
  (elements : jsstring -> option (list JSValue * jsstring))
  (s : jsstring) : option (list JSValue * jsstring) :=
  match value s with
  | None => None
  | Some (v, r) =>
      match skip_ws r with
      | [] => None
      | d :: r' =>
          if d =? 44 then
            match elements r' with
            | Some (vs, r'') => Some (v :: vs, r'')
            | None => None
            end
          else if d =? 93 then Some ([v], r')
          else None
      end
  end.

(** [members_step] reads the members of an object, from the first key up
    to and including the closing brace. *)
Definition members_step
  (value : jsstring -> option (JSValue * jsstring))
  (members : jsstring -> option (list (jsstring * JSValue) * jsstring))
  (s : jsstring) : option (list (jsstring * JSValue) * jsstring) :=
  match skip_ws s with
  | [] => None
  | q :: r0 =>
      if q =? 34 then
        match parse_chars r0 with
        | None => None
        | Some (k, r1) =>
            match skip_ws r1 with
            | [] => None
            | col :: r2 =>
                if col =? 58 then
                  match value r2 with
                  | None => None
                  | Some (v, r3) =>
                      match skip_ws r3 with
                      | [] => None
                      | d :: r4 =>
                          if d =? 44 then
                            match members r4 with
                            | Some (ms, r5) => Some ((k, v) :: ms, r5)
                            | None => None
                            end
                          else if d =? 125 then Some ([(k, v)], r4)
                          else None
                      end
                  end
                else None
            end
        end
      else None
  end.

(** [fuel] bounds the depth of the calls.  Twice the length of the text
    is enough: more fuel never changes the result, see
    [parse_value_fuel]. *)
Fixpoint parse_value (fuel : nat) (s : jsstring) : option (JSValue * jsstring) :=
  match fuel with
  | O => None
  | S f => value_step (parse_elements f) (parse_members f) s
  end
with parse_elements (fuel : nat) (s : jsstring)
  : option (list JSValue * jsstring) :=
  match fuel with
  | O => None
  | S f => elements_step (parse_value f) (parse_elements f) s
  end
with parse_members (fuel : nat) (s : jsstring)
  : option (list (jsstring * JSValue) * jsstring) :=
  match fuel with
  | O => None
  | S f => members_step (parse_value f) (parse_members f) s
  end.

(** [JSON.parse(text)] without reviver: the whole text is one JSON value
    with optional white space around it, or a [SyntaxError] is thrown. *)
Definition JSON_parse (text : jsstring) : completion JSValue :=
  match parse_value (S (2 * List.length text)) text with
  | Some (v, r) =>
      match skip_ws r with
      | [] => Normal v
      | _ :: _ => Throw SyntaxError
      end
  | None => Throw SyntaxError
  end.

(** [ToString] of what the decompressor returns: a string, or [null]. *)
Definition ToString_nullable (v : option jsstring) : jsstring :=
  match v with
  | Some s => s
  | None => str "null"
  end.

Local Close Scope N_scope.

(* ================================================================= *)
(** ** What the program takes from outside the file *)

(** The two functions of the LZString library the program calls, and the
    two places where the JavaScript engine looks at the double a numeric
    literal denotes: writing it in [JSON.stringify] and testing it for
    truth.  The decompressor returns a string or [null] ([None]). *)
Class Platform : Type := {
  compressToEncodedURIComponent : jsstring -> jsstring;
  decompressFromEncodedURIComponent : jsstring -> option jsstring;
  NumberToJSON : jsstring -> jsstring;
  NumberToBoolean : jsstring -> bool
}.

(** The alphabet of [compressToEncodedURIComponent]: letters, digits,
    [+], [-] and [$]. *)
Definition uri_safe (c : N) : bool :=
  ((65 <=? c) && (c <=? 90) || (97 <=? c) && (c <=? 122)
   || (48 <=? c) && (c <=? 57) || (c =? 43) || (c =? 45) || (c =? 36))%N.

(** The contract of the library: decompression undoes compression, the
    compressed text is made of URI-safe characters, and the empty text
    decompresses to [null]. *)
Class LZStringContract (P : Platform) : Prop := {
  decompress_compress :
    forall s, decompressFromEncodedURIComponent
                (compressToEncodedURIComponent s) = Some s;
  compress_uri_safe :
    forall s, forallb uri_safe (compressToEncodedURIComponent s) = true;
  decompress_empty :
    decompressFromEncodedURIComponent [] = None
}.

(** A reference compressor that meets the contract, for running the
    program on concrete inputs: [Q], then every code unit in binary, low
    bit first, [A] for 0 and [B] for 1, closed by [-]. *)
Fixpoint pos_bits (p : positive) : jsstring :=
  match p with
  | xH => [66%N]
  | xO q => 65%N :: pos_bits q
  | xI q => 66%N :: pos_bits q
  end.

Definition unit_bits (c : N) : jsstring :=
  match c with
  | N0 => []
  | Npos p => pos_bits p
  end.

Definition ref_compress (s : jsstring) : jsstring :=
  81%N :: flat_map (fun c => unit_bits c ++ [45%N]) s.

Fixpoint ref_decode (acc w : N) (s : jsstring) : option jsstring :=
  match s with
  | [] => Some []
  | c :: r =>
      if (c =? 45)%N then
        match ref_decode 0%N 1%N r with
        | Some t => Some (acc :: t)
        | None => None
        end
      else if (c =? 65)%N then ref_decode acc (2 * w)%N r
      else if (c =? 66)%N then ref_decode (acc + w)%N (2 * w)%N r
      else None
  end.

Definition ref_decompress (s : jsstring) : option jsstring :=
  match s with
  | [] => None
  | c :: r => if (c =? 81)%N then ref_decode 0%N 1%N r else None
  end.

(** The reference platform writes back the literal a number was read
    from and takes a number for zero when its literal has no digit from
    1 to 9 before the exponent. *)
Definition ref_NumberToBoolean (l : jsstring) : bool :=
  let mantissa :=
    (fix upto_exp (s : jsstring) : jsstring :=
       match s with
       | [] => []
       | c :: r => if ((c =? 101) || (c =? 69))%N then [] else c :: upto_exp r
       end) l in
  existsb (fun c => (49 <=? c)%N && (c <=? 57)%N) mantissa.

Definition ref_platform : Platform := {|
  compressToEncodedURIComponent := ref_compress;
  decompressFromEncodedURIComponent := ref_decompress;
  NumberToJSON := fun l => l;
  NumberToBoolean := ref_NumberToBoolean
|}.

(* ================================================================= *)
(** ** The state and the monad of the methods *)

(** The two private fields of the one [hostGame] instance of the page,
    and [window.location.hash] as the getter returns it: empty, or [#]
    and the fragment.  After [#unhashState] a field holds whatever
    [JSON.parse] found, so both are values, not a string and a list. *)
Record State : Type := {
  qList : JSValue;
  gName : JSValue;
  location_hash : jsstring
}.

(** What [qListAdd] and [#unhashState] return:
    [{ success: ..., error: ... }], the error absent on success. *)
Record Result : Type := {
  success : bool;
  error : option jsstring
}.

(** A method runs on the state and ends normally or by throwing; what
    it wrote before throwing stays written. *)
Definition M (A : Type) : Type := State -> completion A * State.

Definition ret {A} (a : A) : M A := fun st => (Normal a, st).

Definition mbind {A B} (m : M A) (k : A -> M B) : M B :=
  fun st =>
    match m st with
    | (Normal a, st') => k a st'
    | (Throw e, st') => (Throw e, st')
    end.

Notation "x <-- m ;;; k" := (mbind m (fun x => k))
  (at level 61, m at next level, right associativity).
Notation "m ;;; k" := (mbind m (fun _ => k))
  (at level 61, right associativity).

(** [try { body } catch (e) { handler }] on the state. *)
Definition try_catch_M {A} (body : M A) (handler : JSError -> M A) : M A :=
  fun st =>
    match body st with
    | (Normal a, st') => (Normal a, st')
    | (Throw e, st') => handler e st'
    end.

Definition lift {A} (c : completion A) : M A := fun st => (c, st).

Definition read {A} (f : State -> A) : M A := fun st => (Normal (f st), st).

Definition write_qList (v : JSValue) : M unit :=
  fun st => (Normal tt, {| qList := v; gName := gName st;
                           location_hash := location_hash st |}).

Definition write_gName (v : JSValue) : M unit :=
  fun st => (Normal tt, {| qList := qList st; gName := v;
                           location_hash := location_hash st |}).

(** [window.location.hash = v] for a text that needs no percent
    encoding, which the URI-safe alphabet of the compressor guarantees:
    one leading [#] of [v] is dropped, and the getter then returns the
    empty string for an empty fragment and [#] with the fragment
    otherwise. *)
Definition assign_hash (v : jsstring) : jsstring :=
  let fragment :=
    match v with
    | c :: r => if (c =? 35)%N then r else v
    | [] => []
    end in
  match fragment with
  | [] => []
  | _ :: _ => 35%N :: fragment
  end.

Definition write_location_hash (v : jsstring) : M unit :=
  fun st => (Normal tt, {| qList := qList st; gName := gName st;
                           location_hash := assign_hash v |}).

(* ================================================================= *)
(** ** The class [hostGame] *)

(** [`${n}`] for a length: its decimal numeral. *)
Definition decimal (n : nat) : jsstring :=
  str (NilEmpty.string_of_uint (Nat.to_uint n)).

(** The three failures of [qListAdd], which the specification calls
    [NotAStringError], [EmptyQuestionError] and [TooManyWordsError]. *)
Definition NotAStringError : Result :=
  {| success := false; error := Some (str "Item must be a string") |}.

Definition EmptyQuestionError : Result :=
  {| success := false; error := Some (str "Question cannot be empty") |}.

Definition TooManyWordsError (count : nat) : Result :=
  {| success := false;
     error := Some (str "Question must be 20 words or less (currently "
                    ++ decimal count ++ str " words)") |}.

Definition DecodeError : Result :=
  {| success := false; error := Some (str "Error decoding") |}.

Definition Success : Result := {| success := true; error := None |}.

(** [Array.prototype.splice(index, 1)] on a list: the start is counted
    from the end when [index] is negative and clamped to the list, and
    at most one element is removed from there. *)
Definition splice1 {A} (index : Z) (l : list A) : list A :=
  let len := Z.of_nat (List.length l) in
  let actualStart :=
    if (index <? 0)%Z then Z.max (len + index) 0 else Z.min index len in
  let actualDeleteCount := Z.min (Z.max 1 0) (len - actualStart) in
  firstn (Z.to_nat actualStart) l
  ++ skipn (Z.to_nat (actualStart + actualDeleteCount)) l.

(** The strings the iterator of a string yields: its code points. *)
Fixpoint code_points (s : jsstring) : list jsstring :=
  match s with
  | [] => []
  | c :: t =>
      if is_lead_surrogate c then
        match t with
        | d :: r =>
            if is_trail_surrogate d then [c; d] :: code_points r
            else [c] :: code_points t
        | [] => [[c]]
        end
      else [c] :: code_points t
  end.

(** [ToBoolean] *)
Definition ToBoolean `{Platform} (v : JSValue) : bool :=
  match v with
  | JSUndefined | JSNull => false
  | JSBool b => b
  | JSNumber l => NumberToBoolean l
  | JSString s => match s with [] => false | _ => true end
  | JSArray _ | JSObject _ => true
  end.

Section HostGame.
Context `{P : Platform}.

(** [getGameName()] *)
Definition getGameName : M JSValue := read gName.

(** [getQuestions()]: [[...this.#qList]], a copy of the array.  A string
    spreads into its code points; any other value the field can hold is
    not iterable. *)
Definition getQuestions : M JSValue :=
  fun st =>
    match qList st with
    | JSArray l => (Normal (JSArray l), st)
    | JSString s => (Normal (JSArray (map JSString (code_points s))), st)
    | _ => (Throw TypeError, st)
    end.

(** [#hashState()] *)
Definition hashState : M unit :=
  fun st =>
    let jsonString := JSON_stringify_state NumberToJSON (gName st) (qList st) in
    let hashString := compressToEncodedURIComponent jsonString in
    write_location_hash hashString st.

(** [this.#qList.push(item)]: only an array has [push]. *)
Definition qList_push (item : JSValue) : M unit :=
  fun st =>
    match qList st with
    | JSArray l => write_qList (JSArray (l ++ [item])) st
    | _ => (Throw TypeError, st)
    end.

(** [this.#qList.splice(index, 1)]: only an array has [splice]. *)
Definition qList_splice (index : Z) : M unit :=
  fun st =>
    match qList st with
    | JSArray l => write_qList (JSArray (splice1 index l)) st
    | _ => (Throw TypeError, st)
    end.

(** [qListAdd(item)] *)
Definition qListAdd (item : JSValue) : M Result :=
  match item with
  | JSString s =>
      match trim s with
      | [] => ret EmptyQuestionError
      | _ :: _ =>
          if 20 <? wordCount s then ret (TooManyWordsError (wordCount s))
          else
            qList_push item ;;;
            hashState ;;;
            ret Success
      end
  | _ => ret NotAStringError
  end.

(** [qListDelete(index)], for an integer [index]. *)
Definition qListDelete (index : Z) : M unit :=
  qList_splice index ;;;
  hashState.

(** [setGName(name)] *)
Definition setGName (name : JSValue) : M unit :=
  write_gName name ;;;
  hashState.

(** What both revisions do to decode the fragment: the hash without
    its first character is decompressed and the result parsed. *)
Definition parse_fragment : M JSValue :=
  hash <-- read location_hash ;;;
  let hashString := slice1 hash in
  let jsonString := decompressFromEncodedURIComponent hashString in
  lift (JSON_parse (ToString_nullable jsonString)).

Definition reset_state : M Result :=
  write_gName (JSString []) ;;;
  write_qList (JSArray []) ;;;
  ret DecodeError.

(** [#unhashState()] of the second revision: everything in [try], the
    state reset in [catch]. *)
Definition unhashState : M Result :=
  try_catch_M
    (obj <-- parse_fragment ;;;
     title <-- lift (get_property (str "title") obj) ;;;
     write_gName title ;;;
     list <-- lift (get_property (str "list") obj) ;;;
     write_qList list ;;;
     ret Success)
    (fun e => reset_state).

(** The field initializers and the constructor, on a page whose hash
    is [hash]. *)
Definition initial (hash : jsstring) : State :=
  {| qList := JSArray []; gName := JSString []; location_hash := hash |}.

Definition new_hostGame (hash : jsstring) : completion unit * State :=
  (unhashState ;;; ret tt) (initial hash).

(** The calls that change the state, as the page makes them. *)
Inductive call : Type :=
| CallAdd (item : JSValue)
| CallDelete (index : Z)
| CallSetName (name : JSValue).

Definition run_call (st : State) (c : call) : State :=
  match c with
  | CallAdd item => snd (qListAdd item st)
  | CallDelete index => snd (qListDelete index st)
  | CallSetName name => snd (setGName name st)
  end.

Definition run_calls (cs : list call) (st : State) : State :=
  fold_left run_call cs st.

(** The states of a session: the page is loaded with some hash, the
    constructor runs, then any calls. *)
Definition session (hash : jsstring) (cs : list call) : State :=
  run_calls cs (snd (new_hostGame hash)).
End HostGame.

(** The first revision of the file differs in [#unhashState], which has
    no [try]: it tests the parsed value for truth instead. *)
Module Rev1.
Section HostGame.
Context `{P : Platform}.

Definition unhashState : M Result :=
  obj <-- parse_fragment ;;;
  if negb (ToBoolean obj) then reset_state
  else
    title <-- lift (get_property (str "title") obj) ;;;
    write_gName title ;;;
    list <-- lift (get_property (str "list") obj) ;;;
    write_qList list ;;;
    ret Success.

Definition new_hostGame (hash : jsstring) : completion unit * State :=
  (unhashState ;;; ret tt) (initial hash).
End HostGame.
End Rev1.

(* ================================================================= *)
(** ** What the specification calls a valid question and a valid state *)

(** Not blank, and at most 20 white-space-delimited words. *)
Definition valid_question (q : jsstring) : Prop :=
  blank q = false /\ List.length (whitespace_delimited_words q) <= 20.

(** The state of a title and a list of questions. *)
Definition game (title : jsstring) (questions : list jsstring)
  (hash : jsstring) : State :=
  {| qList := JSArray (map JSString questions);
     gName := JSString title;
     location_hash := hash |}.

(** Every element of the question list is a valid question. *)
Definition questions_valid (st : State) : Prop :=
  exists qs, qList st = JSArray (map JSString qs) /\ Forall valid_question qs.

(** The text [JSON.stringify] writes for a title and a list of
    questions that are strings. *)
Definition state_text (t : jsstring) (qs : list jsstring) : jsstring :=
  (123 :: QuoteJSONString (str "title") ++ 58 :: QuoteJSONString t
   ++ 44 :: QuoteJSONString (str "list") ++ 58 :: 91
   :: join_comma (map QuoteJSONString qs) ++ [93; 125])%N.

(** The list without its element at position [n]; the list itself when
    it has no such position. *)
Definition remove_at {A} (n : nat) (l : list A) : list A :=
  firstn n l ++ skipn (S n) l.

Section Codec.
Context `{P : Platform}.

(** What the specification calls [encode]: the string [#hashState]
    assigns to the hash, for a title and a list. *)
Definition encode (title list : JSValue) : jsstring :=
  compressToEncodedURIComponent (JSON_stringify_state NumberToJSON title list).

(** The hash the page shows once [#hashState] has run on a state. *)
Definition published (st : State) : jsstring :=
  location_hash (snd (hashState st)).

(** The state [#unhashState] leaves when it fails. *)
Definition emptied (st : State) : State :=
  {| qList := JSArray []; gName := JSString [];
     location_hash := location_hash st |}.

(** The value [JSON.parse] is given by [#unhashState] on a state. *)
Definition fragment_text (st : State) : jsstring :=
  ToString_nullable
    (decompressFromEncodedURIComponent (slice1 (location_hash st))).
End Codec.

(** [obj.title] or [obj.list] on a value that is neither [null] nor
    [undefined]. *)
Definition field (key : jsstring) (obj : JSValue) : JSValue :=
  match obj with
  | JSObject ps => own_property key ps
  | _ => JSUndefined
  end.

(** A parser consumes when it leaves less text than it was given. *)
Definition consumes {A} (p : jsstring -> option (A * jsstring)) : Prop :=
  forall s a r, p s = Some (a, r) -> (List.length r < List.length s)%nat.

(** Two texts a fragment can hold: an object with a title and no list,
    and an object whose list holds one empty question. *)
Definition title_only_text : jsstring :=
  (123 :: QuoteJSONString (str "title") ++ 58 :: QuoteJSONString (str "x")
   ++ [125])%N.

Definition empty_question_text : jsstring := state_text [] [[]].

(* ================================================================= *)
(** ** The page of the second revision *)

(** What the script keeps in the document: the two pages and whether
    each is hidden, the value last given to the name input (by [render]
    or by the user), the text in the question input, the items of the
    question list, each with the text of its span and the index its
    delete button passes to [qListDelete], whether the show button is
    disabled, the text last handed to [QRCode.toCanvas], and the alerts
    shown.  The size [genQR] computes from the window is a product of
    doubles and is left out. *)
Record DOM : Type := {
  editPage_hidden : bool;
  qrPage_hidden : bool;
  nameInput_value : JSValue;
  questionInput_value : jsstring;
  listEl : list (JSValue * nat);
  showQRBtn_disabled : bool;
  qrContainer : option jsstring;
  alerts : list jsstring
}.

(** The page: the state of the [hostGame] instance and of the hash, the
    variable [qrVis], and the document. *)
Record Page : Type := {
  host : State;
  qrVis : bool;
  dom : DOM
}.

Definition PM (A : Type) : Type := Page -> completion A * Page.

Definition with_host (st : State) (pg : Page) : Page :=
  {| host := st; qrVis := qrVis pg; dom := dom pg |}.

Definition with_qrVis (b : bool) (pg : Page) : Page :=
  {| host := host pg; qrVis := b; dom := dom pg |}.

Definition with_dom (d : DOM) (pg : Page) : Page :=
  {| host := host pg; qrVis := qrVis pg; dom := d |}.

Definition set_pages (edit_hidden qr_hidden : bool) (d : DOM) : DOM :=
  {| editPage_hidden := edit_hidden; qrPage_hidden := qr_hidden;
     nameInput_value := nameInput_value d;
     questionInput_value := questionInput_value d;
     listEl := listEl d; showQRBtn_disabled := showQRBtn_disabled d;
     qrContainer := qrContainer d; alerts := alerts d |}.

Definition set_nameInput_value (v : JSValue) (d : DOM) : DOM :=
  {| editPage_hidden := editPage_hidden d; qrPage_hidden := qrPage_hidden d;
     nameInput_value := v;
     questionInput_value := questionInput_value d;
     listEl := listEl d; showQRBtn_disabled := showQRBtn_disabled d;
     qrContainer := qrContainer d; alerts := alerts d |}.

Definition set_questionInput_value (t : jsstring) (d : DOM) : DOM :=
  {| editPage_hidden := editPage_hidden d; qrPage_hidden := qrPage_hidden d;
     nameInput_value := nameInput_value d;
     questionInput_value := t;
     listEl := listEl d; showQRBtn_disabled := showQRBtn_disabled d;
     qrContainer := qrContainer d; alerts := alerts d |}.

Definition set_listEl (items : list (JSValue * nat)) (d : DOM) : DOM :=
  {| editPage_hidden := editPage_hidden d; qrPage_hidden := qrPage_hidden d;
     nameInput_value := nameInput_value d;
     questionInput_value := questionInput_value d;
     listEl := items; showQRBtn_disabled := showQRBtn_disabled d;
     qrContainer := qrContainer d; alerts := alerts d |}.

Definition set_showQRBtn_disabled (b : bool) (d : DOM) : DOM :=
  {| editPage_hidden := editPage_hidden d; qrPage_hidden := qrPage_hidden d;
     nameInput_value := nameInput_value d;
     questionInput_value := questionInput_value d;
     listEl := listEl d; showQRBtn_disabled := b;
     qrContainer := qrContainer d; alerts := alerts d |}.

Definition set_qrContainer (url : jsstring) (d : DOM) : DOM :=
  {| editPage_hidden := editPage_hidden d; qrPage_hidden := qrPage_hidden d;
     nameInput_value := nameInput_value d;
     questionInput_value := questionInput_value d;
     listEl := listEl d; showQRBtn_disabled := showQRBtn_disabled d;
     qrContainer := Some url; alerts := alerts d |}.

Definition add_alert (message : jsstring) (d : DOM) : DOM :=
  {| editPage_hidden := editPage_hidden d; qrPage_hidden := qrPage_hidden d;
     nameInput_value := nameInput_value d;
     questionInput_value := questionInput_value d;
     listEl := listEl d; showQRBtn_disabled := showQRBtn_disabled d;
     qrContainer := qrContainer d; alerts := alerts d ++ [message] |}.

(** [name === ""] *)
Definition is_empty_string (v : JSValue) : bool :=
  match v with
  | JSString [] => true
  | _ => false
  end.

(** What [questions.forEach((text, index) => ...)] visits. *)
Definition indexed (questions : list JSValue) : list (JSValue * nat) :=
  combine questions (seq 0 (List.length questions)).

(** What the user does on the page.  [TypeQuestion] fills the question
    input; [ChangeName] edits the name input and fires its [change]
    event; [PressEnter] is the [Enter] key in the question input;
    [ClickDelete k] is a click on the delete button of the item at
    position [k] of the list. *)
Inductive event : Type :=
| TypeQuestion (text : jsstring)
| ClickAdd
| PressEnter
| ChangeName (text : jsstring)
| ClickDelete (k : nat)
| ClickShowQR
| ClickBack.

Section PageScript.
Context `{P : Platform}.

(** [host.genQR(qrContainer)]: the text of the code is the hash. *)
Definition genQR : PM unit :=
  fun pg =>
    let url := location_hash (host pg) in
    (Normal tt, with_dom (set_qrContainer url (dom pg)) pg).

(** [render()] *)
Definition render : PM unit :=
  fun pg =>
    let pg1 := with_dom (set_pages (qrVis pg) (negb (qrVis pg)) (dom pg)) pg in
    if qrVis pg then genQR pg1
    else
      let name := gName (host pg1) in
      let pg2 :=
        with_dom (set_listEl [] (set_nameInput_value name (dom pg1))) pg1 in
      match getQuestions (host pg2) with
      | (Normal (JSArray questions), st) =>
          let pg3 :=
            with_dom (set_listEl (indexed questions) (dom pg2))
              (with_host st pg2) in
          if (List.length questions =? 0) || is_empty_string name then
            (Normal tt, with_dom (set_showQRBtn_disabled true (dom pg3)) pg3)
          else
            genQR (with_dom (set_showQRBtn_disabled false (dom pg3)) pg3)
      | (Normal _, st) => (Throw TypeError, with_host st pg2)
      | (Throw e, st) => (Throw e, with_host st pg2)
      end.

(** The listener of a delete button made for [index]. *)
Definition on_delete (index : nat) : PM unit :=
  fun pg =>
    match qListDelete (Z.of_nat index) (host pg) with
    | (Normal _, st) => render (with_host st pg)
    | (Throw e, st) => (Throw e, with_host st pg)
    end.

(** The [click] listener of the add button. *)
Definition on_add : PM unit :=
  fun pg =>
    match qListAdd (JSString (questionInput_value (dom pg))) (host pg) with
    | (Normal result, st) =>
        if success result then
          render (with_dom (set_questionInput_value [] (dom pg))
                    (with_host st pg))
        else (Normal tt, with_host st pg)
    | (Throw e, st) => (Throw e, with_host st pg)
    end.

(** The [change] listener of the name input. *)
Definition on_name_change : PM unit :=
  fun pg =>
    match setGName (nameInput_value (dom pg)) (host pg) with
    | (Normal _, st) => render (with_host st pg)
    | (Throw e, st) => (Throw e, with_host st pg)
    end.

(** The [click] listener of the show button. *)
Definition on_show_qr : PM unit :=
  fun pg =>
    match getQuestions (host pg) with
    | (Normal (JSArray questions), st) =>
        if List.length questions =? 0 then
          (Normal tt,
           with_dom (add_alert (str "Add at least one question first") (dom pg))
             (with_host st pg))
        else render (with_qrVis true (with_host st pg))
    | (Normal _, st) => (Throw TypeError, with_host st pg)
    | (Throw e, st) => (Throw e, with_host st pg)
    end.

(** The [click] listener of the back button. *)
Definition on_back : PM unit :=
  fun pg => render (with_qrVis false pg).

(** An event runs its listener; a click on a delete button that is not
    there runs nothing. *)
Definition handle (ev : event) : PM unit :=
  fun pg =>
    match ev with
    | TypeQuestion text =>
        (Normal tt, with_dom (set_questionInput_value text (dom pg)) pg)
    | ClickAdd | PressEnter => on_add pg
    | ChangeName text =>
        on_name_change
          (with_dom (set_nameInput_value (JSString text) (dom pg)) pg)
    | ClickDelete k =>
        match nth_error (listEl (dom pg)) k with
        | Some (_, index) => on_delete index pg
        | None => (Normal tt, pg)
        end
    | ClickShowQR => on_show_qr pg
    | ClickBack => on_back pg
    end.

Definition run_events (evs : list event) (pg : Page) : Page :=
  fold_left (fun pg ev => snd (handle ev pg)) evs pg.

(** The script from top to bottom on a page whose hash is [hash] and
    whose document is [d]: the instance is made, [qrVis] is [false], and
    [render] runs once. *)
Definition load (hash : jsstring) (d : DOM) : Page :=
  snd (render {| host := snd (new_hostGame hash); qrVis := false; dom := d |}).

(** What the user can do with the document as it is: nothing on a page
    that is hidden, no click on a disabled button or on a delete button
    that is not in the list.  The inputs, the list and the show button
    are taken to be on the edit page and the back button on the code
    page, as [render] treats them. *)
Definition possible (ev : event) (pg : Page) : bool :=
  match ev with
  | TypeQuestion _ | ClickAdd | PressEnter | ChangeName _ =>
      negb (editPage_hidden (dom pg))
  | ClickDelete k =>
      negb (editPage_hidden (dom pg)) && (k <? List.length (listEl (dom pg)))
  | ClickShowQR =>
      negb (editPage_hidden (dom pg)) && negb (showQRBtn_disabled (dom pg))
  | ClickBack => negb (qrPage_hidden (dom pg))
  end.

Fixpoint all_possible (evs : list event) (pg : Page) : bool :=
  match evs with
  | [] => true
  | ev :: r => possible ev pg && all_possible r (snd (handle ev pg))
  end.
End PageScript.

(** A state whose title is a string and whose list holds strings. *)
Definition game_state (st : State) : Prop :=
  exists title qs h, st = game title qs h.

(** Loading the page again with the hash it shows gives the state back. *)
Definition reload_stable `{Platform} (st : State) : Prop :=
  new_hostGame (location_hash st) = (Normal tt, st).

(** Every name a list of calls sets is a string. *)
Definition names_are_strings (cs : list call) : Prop :=
  Forall (fun c => match c with
                   | CallSetName (JSString _) => True
                   | CallSetName _ => False
                   | _ => True
                   end) cs.

(** The document agrees with the state. *)
Definition page_ok (pg : Page) : Prop :=
  exists title qs h,
    host pg = game title qs h
    /\ editPage_hidden (dom pg) = qrVis pg
    /\ qrPage_hidden (dom pg) = negb (qrVis pg)
    /\ (qrVis pg = false ->
        listEl (dom pg) = indexed (map JSString qs)
        /\ showQRBtn_disabled (dom pg)
           = ((List.length qs =? 0) || is_empty_string (JSString title)))
    /\ (qrVis pg = true ->
        qs <> [] /\ title <> [] /\ qrContainer (dom pg) = Some h).

(** A document before the script has touched it. *)
Definition empty_document : DOM :=
  {| editPage_hidden := false; qrPage_hidden := false;
     nameInput_value := JSString []; questionInput_value := [];
     listEl := []; showQRBtn_disabled := false;
     qrContainer := None; alerts := [] |}.

(* ================================================================= *)
(** * Properties *)

(** ** Strings, [trim] and [split] *)

Lemma jsstring_eqb_eq a b : jsstring_eqb a b = true <-> a = b.
Proof.
  revert b; induction a as [|c a IH]; intros [|d b]; simpl; split;
    try congruence; try reflexivity.
  - intros H. apply andb_prop in H as [H1 H2].
    apply N.eqb_eq in H1. apply IH in H2. congruence.
  - intros H. injection H as -> ->. rewrite N.eqb_refl. simpl. now apply IH.
Qed.

Lemma jsstring_eqb_refl a : jsstring_eqb a a = true.
Proof. now apply jsstring_eqb_eq. Qed.

Lemma blank_app a b : blank (a ++ b) = blank a && blank b.
Proof. apply forallb_app. Qed.

Lemma blank_rev s : blank (rev s) = blank s.
Proof.
  induction s as [|c s IH]; simpl; [reflexivity|].
  rewrite blank_app, IH. simpl. rewrite andb_true_r. apply andb_comm.
Qed.

Lemma trimStart_decomp s :
  exists w, s = w ++ trimStart s /\ blank w = true.
Proof.
  induction s as [|c s [w [E B]]]; simpl.
  - exists []. split; reflexivity.
  - destruct (is_ws c) eqn:W.
    + exists (c :: w). simpl. rewrite W, B. split; [congruence | reflexivity].
    + exists []. split; reflexivity.
Qed.

Lemma trimStart_head s c r : trimStart s = c :: r -> is_ws c = false.
Proof.
  induction s as [|d s IH]; simpl; [discriminate|].
  destruct (is_ws d) eqn:W; [exact IH|].
  intros H. injection H as -> _. exact W.
Qed.

Lemma trimStart_nil s : trimStart s = [] <-> blank s = true.
Proof.
  induction s as [|c s IH]; simpl; [tauto|].
  destruct (is_ws c); simpl; [exact IH|]. split; discriminate.
Qed.

Lemma trim_nil s : trim s = [] <-> blank s = true.
Proof.
  unfold trim, trimEnd.
  destruct (trimStart_decomp s) as [w [E B]].
  split.
  - intros H. apply (f_equal (@rev N)) in H. rewrite rev_involutive in H.
    simpl in H. apply trimStart_nil in H. rewrite blank_rev in H.
    destruct (trimStart s) as [|c r] eqn:T.
    + now apply trimStart_nil.
    + apply trimStart_head in T. simpl in H. rewrite T in H. discriminate.
  - intros H. apply trimStart_nil in H. rewrite H. reflexivity.
Qed.

Lemma words_go_blank w : blank w = true -> words_go [] w = [].
Proof.
  induction w as [|c w IH]; simpl; [reflexivity|].
  intros H. apply andb_prop in H as [H1 H2]. rewrite H1. auto.
Qed.

Lemma words_go_leading w s :
  blank w = true -> words_go [] (w ++ s) = words_go [] s.
Proof.
  induction w as [|c w IH]; simpl; [reflexivity|].
  intros H. apply andb_prop in H as [H1 H2]. rewrite H1. auto.
Qed.

Lemma words_go_trailing w s cur :
  blank w = true -> words_go cur (s ++ w) = words_go cur s.
Proof.
  intros B. revert cur. induction s as [|c s IH]; intros cur; simpl.
  - destruct w as [|d w]; [reflexivity|].
    simpl in *. apply andb_prop in B as [B1 B2]. rewrite B1.
    rewrite (words_go_blank w B2). destruct cur; reflexivity.
  - destruct (is_ws c); [destruct cur|]; rewrite ?IH; reflexivity.
Qed.

Lemma split_go_words t c :
  is_ws c = false ->
  split_go true [] (t ++ [c]) = words_go [] (t ++ [c])
  /\ forall cur, cur <> [] ->
       split_go false cur (t ++ [c]) = words_go cur (t ++ [c]).
Proof.
  intros W. induction t as [|d t [IH1 IH2]]; simpl.
  - rewrite W. split; reflexivity.
  - destruct (is_ws d) eqn:D.
    + split; [exact IH1|].
      intros cur Hc. rewrite IH1. destruct cur; [contradiction|reflexivity].
    + split; [apply IH2; discriminate|].
      intros cur _. apply IH2. discriminate.
Qed.

(** On a string that is not blank, the pieces [split(/\s+/)] cuts the
    trimmed string into are the white-space-delimited words of the
    string. *)
Lemma split_trim_words s :
  blank s = false -> split_ws (trim s) = whitespace_delimited_words s.
Proof.
  intros NB. unfold whitespace_delimited_words, split_ws, trim, trimEnd.
  destruct (trimStart_decomp s) as [w1 [E1 B1]].
  destruct (trimStart_decomp (rev (trimStart s))) as [w2 [E2 B2]].
  set (s1 := trimStart s) in *.
  set (u := trimStart (rev s1)) in *.
  assert (Es1 : s1 = rev u ++ rev w2).
  { rewrite <- rev_app_distr, <- E2. symmetry. apply rev_involutive. }
  assert (Ew : words_go [] s = words_go [] (rev u)).
  { rewrite E1, Es1. rewrite words_go_leading by exact B1.
    apply words_go_trailing. now rewrite blank_rev. }
  rewrite Ew.
  destruct u as [|d u'] eqn:U.
  - exfalso. apply trimStart_nil in U. rewrite blank_rev in U.
    destruct s1 as [|c0 r0] eqn:S1.
    + apply trimStart_nil in S1. congruence.
    + apply trimStart_head in S1. simpl in U. rewrite S1 in U. discriminate.
  - pose proof (trimStart_head _ _ _ U) as Wd. simpl.
    destruct (rev u') as [|x y] eqn:R.
    + simpl. rewrite Wd. reflexivity.
    + assert (Wx : is_ws x = false).
      { destruct s1 as [|c0 r0] eqn:S1.
        - simpl in Es1. rewrite R in Es1. discriminate.
        - pose proof (trimStart_head s _ _ S1) as W0.
          simpl in Es1. rewrite R in Es1. simpl in Es1.
          injection Es1 as -> _. exact W0. }
      simpl. rewrite Wx.
      apply (proj2 (split_go_words y d Wd)). discriminate.
Qed.

Example split_examples :
  split_ws (str "a  b") = [str "a"; str "b"]
  /\ split_ws (str " a") = [[]; str "a"]
  /\ split_ws (str "a ") = [str "a"; []]
  /\ split_ws [] = [[]]
  /\ trim (str "  hello world ") = str "hello world"
  /\ wordCount (str " one two  three ") = 3
  /\ whitespace_delimited_words (str " one two  three ")
     = [str "one"; str "two"; str "three"].
Proof. repeat split; reflexivity. Qed.

(** The word count of the code is the number of words. *)
Lemma wordCount_words s :
  blank s = false ->
  wordCount s = List.length (whitespace_delimited_words s).
Proof. intros H. unfold wordCount. now rewrite split_trim_words. Qed.

(* ================================================================= *)
(** ** The fuel of the parser *)

Section Fuel.
Local Open Scope N_scope.

Lemma skip_ws_length s : (List.length (skip_ws s) <= List.length s)%nat.
Proof.
  induction s as [|c s IH]; cbn [skip_ws]; [apply Nat.le_refl|].
  destruct (json_ws c); cbn [List.length]; lia.
Qed.

Lemma skip_ws_cons s c r :
  skip_ws s = c :: r -> (List.length r < List.length s)%nat.
Proof.
  intros H. pose proof (skip_ws_length s) as L. rewrite H in L.
  cbn [List.length] in L. lia.
Qed.

Lemma push_char_length c p t r n :
  push_char c p = Some (t, r) ->
  (forall t' r', p = Some (t', r') -> (List.length r' < n)%nat) ->
  (List.length r < n)%nat.
Proof.
  destruct p as [[t' r']|]; cbn; [|discriminate].
  intros H K. injection H as _ <-. now apply (K t').
Qed.

Lemma parse_chars_length_le n :
  forall s t r, (List.length s <= n)%nat ->
    parse_chars s = Some (t, r) -> (List.length r < List.length s)%nat.
Proof.
  induction n as [|n IH]; intros s t r L H.
  - destruct s; [discriminate H | cbn in L; lia].
  - destruct s as [|c s]; [discriminate H|].
    cbn [List.length] in *. cbn [parse_chars] in H.
    destruct (c =? 34).
    { injection H as _ <-. lia. }
    destruct (c =? 92).
    + destruct s as [|e r1]; [discriminate H|]. cbn [List.length] in *.
      destruct (e =? 117).
      * destruct r1 as [|h1 [|h2 [|h3 [|h4 r2]]]]; try discriminate H.
        cbn [List.length] in *.
        destruct (hex4 h1 h2 h3 h4); [|discriminate H].
        apply push_char_length with (n := S (List.length r2)) in H; [lia|].
        intros t' r' E. apply IH in E; lia.
      * destruct (escape_char e); [|discriminate H].
        apply push_char_length with (n := S (List.length r1)) in H; [lia|].
        intros t' r' E. apply IH in E; lia.
    + destruct (c <? 32); [discriminate H|].
      apply push_char_length with (n := S (List.length s)) in H; [lia|].
      intros t' r' E. apply IH in E; lia.
Qed.

Lemma parse_chars_length s t r :
  parse_chars s = Some (t, r) -> (List.length r < List.length s)%nat.
Proof. apply (parse_chars_length_le (List.length s)). apply Nat.le_refl. Qed.

Lemma take_digits_length s :
  (List.length (snd (take_digits s)) <= List.length s)%nat.
Proof.
  induction s as [|c s IH]; cbn [take_digits]; [apply Nat.le_refl|].
  destruct (is_digit c); [|apply Nat.le_refl].
  destruct (take_digits s) as [ds r']. cbn [snd List.length] in *. lia.
Qed.

Lemma parse_int_length s i r :
  parse_int s = Some (i, r) -> (List.length r < List.length s)%nat.
Proof.
  destruct s as [|c s]; [discriminate|]. cbn [parse_int List.length].
  destruct (c =? 48); [intros H; injection H as _ <-; lia|].
  destruct (is_digit c); [|discriminate].
  pose proof (take_digits_length s) as L.
  destruct (take_digits s) as [ds r']. cbn [snd] in L.
  intros H. injection H as _ <-. lia.
Qed.

Lemma parse_frac_length s i r :
  parse_frac s = Some (i, r) -> (List.length r <= List.length s)%nat.
Proof.
  destruct s as [|c s]; cbn [parse_frac List.length].
  - intros H. injection H as _ <-. apply Nat.le_refl.
  - destruct (c =? 46).
    + pose proof (take_digits_length s) as L.
      destruct (take_digits s) as [[|d ds] r']; [discriminate|].
      cbn [snd] in L. intros H. injection H as _ <-. lia.
    + intros H. injection H as _ <-. apply Nat.le_refl.
Qed.

Lemma parse_exp_length s i r :
  parse_exp s = Some (i, r) -> (List.length r <= List.length s)%nat.
Proof.
  destruct s as [|c s]; cbn [parse_exp List.length].
  - intros H. injection H as _ <-. apply Nat.le_refl.
  - destruct ((c =? 101) || (c =? 69)).
    + assert (K : forall sign r1,
                 (List.length r1 <= List.length s)%nat ->
                 (let (ds, r2) := take_digits r1 in
                  match ds with
                  | [] => None
                  | _ :: _ => Some (c :: sign ++ ds, r2)
                  end) = Some (i, r) ->
                 (List.length r <= S (List.length s))%nat).
      { intros sign r1 L1. pose proof (take_digits_length r1) as L.
        destruct (take_digits r1) as [[|d ds] r2]; [discriminate|].
        cbn [snd] in L. intros H. injection H as _ <-. lia. }
      destruct s as [|d s'].
      * apply K. apply Nat.le_refl.
      * destruct ((d =? 43) || (d =? 45)); apply K; cbn [List.length]; lia.
    + intros H. injection H as _ <-. apply Nat.le_refl.
Qed.

Lemma parse_number_length s l r :
  parse_number s = Some (l, r) -> (List.length r < List.length s)%nat.
Proof.
  unfold parse_number.
  assert (K : forall sign s1,
             (List.length s1 <= List.length s)%nat ->
             match parse_int s1 with
             | None => None
             | Some (i, s2) =>
                 match parse_frac s2 with
                 | None => None
                 | Some (f, s3) =>
                     match parse_exp s3 with
                     | None => None
                     | Some (e, s4) => Some (sign ++ i ++ f ++ e, s4)
                     end
                 end
             end = Some (l, r) ->
             (List.length r < List.length s)%nat).
  { intros sign s1 L1.
    destruct (parse_int s1) as [[i s2]|] eqn:E1; [|discriminate].
    destruct (parse_frac s2) as [[f s3]|] eqn:E2; [|discriminate].
    destruct (parse_exp s3) as [[e s4]|] eqn:E3; [|discriminate].
    apply parse_int_length in E1. apply parse_frac_length in E2.
    apply parse_exp_length in E3. intros H. injection H as _ <-. lia. }
  destruct s as [|c s'].
  - apply K. apply Nat.le_refl.
  - destruct (c =? 45); apply K; cbn [List.length]; lia.
Qed.

Lemma strip_prefix_length p :
  forall s r, strip_prefix p s = Some r -> (List.length r <= List.length s)%nat.
Proof.
  induction p as [|a p IH]; intros s r; cbn [strip_prefix].
  - intros H. injection H as <-. apply Nat.le_refl.
  - destruct s as [|b s]; [discriminate|].
    destruct (a =? b); [|discriminate].
    intros H. apply IH in H. cbn [List.length]. lia.
Qed.

(** Every parser leaves less text than it was given. *)
Lemma value_step_consumes elements members :
  consumes elements -> consumes members ->
  consumes (value_step elements members).
Proof.
  intros He Hm s v r. unfold value_step.
  destruct (skip_ws s) as [|c r0] eqn:W; [discriminate|].
  apply skip_ws_cons in W.
  destruct (c =? 34).
  { destruct (parse_chars r0) as [[t r']|] eqn:E; [|discriminate].
    apply parse_chars_length in E. intros H. injection H as _ <-. lia. }
  destruct (c =? 91).
  { destruct (skip_ws r0) as [|d r'] eqn:W2; [discriminate|].
    apply skip_ws_cons in W2.
    destruct (d =? 93); [intros H; injection H as _ <-; lia|].
    destruct (elements r0) as [[es r'']|] eqn:E; [|discriminate].
    apply He in E. intros H. injection H as _ <-. lia. }
  destruct (c =? 123).
  { destruct (skip_ws r0) as [|d r'] eqn:W2; [discriminate|].
    apply skip_ws_cons in W2.
    destruct (d =? 125); [intros H; injection H as _ <-; lia|].
    destruct (members r0) as [[ms r'']|] eqn:E; [|discriminate].
    apply Hm in E. intros H. injection H as _ <-. lia. }
  destruct (c =? 116).
  { destruct (strip_prefix (str "rue") r0) as [r'|] eqn:E; [|discriminate].
    apply strip_prefix_length in E. intros H. injection H as _ <-. lia. }
  destruct (c =? 102).
  { destruct (strip_prefix (str "alse") r0) as [r'|] eqn:E; [|discriminate].
    apply strip_prefix_length in E. intros H. injection H as _ <-. lia. }
  destruct (c =? 110).
  { destruct (strip_prefix (str "ull") r0) as [r'|] eqn:E; [|discriminate].
    apply strip_prefix_length in E. intros H. injection H as _ <-. lia. }
  destruct (parse_number (c :: r0)) as [[l r']|] eqn:E; [|discriminate].
  apply parse_number_length in E. cbn [List.length] in E.
  intros H. injection H as _ <-. lia.
Qed.

Lemma elements_step_consumes value elements :
  consumes value -> consumes elements ->
  consumes (elements_step value elements).
Proof.
  intros Hv He s vs r. unfold elements_step.
  destruct (value s) as [[v r0]|] eqn:E; [|discriminate]. apply Hv in E.
  destruct (skip_ws r0) as [|d r'] eqn:W; [discriminate|].
  apply skip_ws_cons in W.
  destruct (d =? 44).
  - destruct (elements r') as [[vs' r'']|] eqn:E2; [|discriminate].
    apply He in E2. intros H. injection H as _ <-. lia.
  - destruct (d =? 93); [|discriminate].
    intros H. injection H as _ <-. lia.
Qed.

Lemma members_step_consumes value members :
  consumes value -> consumes members ->
  consumes (members_step value members).
Proof.
  intros Hv Hm s ms r. unfold members_step.
  destruct (skip_ws s) as [|q r0] eqn:W; [discriminate|].
  apply skip_ws_cons in W.
  destruct (q =? 34); [|discriminate].
  destruct (parse_chars r0) as [[k r1]|] eqn:E; [|discriminate].
  apply parse_chars_length in E.
  destruct (skip_ws r1) as [|col r2] eqn:W2; [discriminate|].
  apply skip_ws_cons in W2.
  destruct (col =? 58); [|discriminate].
  destruct (value r2) as [[v r3]|] eqn:E2; [|discriminate]. apply Hv in E2.
  destruct (skip_ws r3) as [|d r4] eqn:W3; [discriminate|].
  apply skip_ws_cons in W3.
  destruct (d =? 44).
  - destruct (members r4) as [[ms' r5]|] eqn:E3; [|discriminate].
    apply Hm in E3. intros H. injection H as _ <-. lia.
  - destruct (d =? 125); [|discriminate].
    intros H. injection H as _ <-. lia.
Qed.

Lemma parse_consumes f :
  consumes (parse_value f) /\ consumes (parse_elements f)
  /\ consumes (parse_members f).
Proof.
  induction f as [|f [Hv [He Hm]]].
  - repeat split; intros s a r H; discriminate H.
  - split; [|split]; cbn [parse_value parse_elements parse_members].
    + now apply value_step_consumes.
    + now apply elements_step_consumes.
    + now apply members_step_consumes.
Qed.

(** Each step only calls its arguments on shorter texts. *)
Lemma value_step_ext elements elements' members members' s :
  (forall r, (List.length r < List.length s)%nat -> elements r = elements' r) ->
  (forall r, (List.length r < List.length s)%nat -> members r = members' r) ->
  value_step elements members s = value_step elements' members' s.
Proof.
  intros He Hm. unfold value_step.
  destruct (skip_ws s) as [|c r0] eqn:W; [reflexivity|].
  apply skip_ws_cons in W.
  rewrite (He r0), (Hm r0) by exact W. reflexivity.
Qed.

Lemma elements_step_ext value value' elements elements' s :
  consumes value ->
  value s = value' s ->
  (forall r, (List.length r < List.length s)%nat -> elements r = elements' r) ->
  elements_step value elements s = elements_step value' elements' s.
Proof.
  intros Hc Hv He. unfold elements_step. rewrite <- Hv.
  destruct (value s) as [[v r0]|] eqn:E; [|reflexivity]. apply Hc in E.
  destruct (skip_ws r0) as [|d r'] eqn:W; [reflexivity|].
  apply skip_ws_cons in W.
  rewrite (He r') by lia. reflexivity.
Qed.

Lemma members_step_ext value value' members members' s :
  consumes value ->
  (forall r, (List.length r < List.length s)%nat -> value r = value' r) ->
  (forall r, (List.length r < List.length s)%nat -> members r = members' r) ->
  members_step value members s = members_step value' members' s.
Proof.
  intros Hc Hv Hm. unfold members_step.
  destruct (skip_ws s) as [|q r0] eqn:W; [reflexivity|].
  apply skip_ws_cons in W.
  destruct (q =? 34); [|reflexivity].
  destruct (parse_chars r0) as [[k r1]|] eqn:E; [|reflexivity].
  apply parse_chars_length in E.
  destruct (skip_ws r1) as [|col r2] eqn:W2; [reflexivity|].
  apply skip_ws_cons in W2.
  destruct (col =? 58); [|reflexivity].
  rewrite <- (Hv r2) by lia.
  destruct (value r2) as [[v r3]|] eqn:E2; [|reflexivity]. apply Hc in E2.
  destruct (skip_ws r3) as [|d r4] eqn:W3; [reflexivity|].
  apply skip_ws_cons in W3.
  rewrite (Hm r4) by lia. reflexivity.
Qed.

Lemma parse_fuel_step f :
  (forall s, (2 * List.length s < f)%nat ->
     parse_value (S f) s = parse_value f s)
  /\ (forall s, (2 * List.length s + 1 < f)%nat ->
        parse_elements (S f) s = parse_elements f s)
  /\ (forall s, (2 * List.length s + 1 < f)%nat ->
        parse_members (S f) s = parse_members f s).
Proof.
  induction f as [|f [Hv [He Hm]]].
  - repeat split; intros s L; lia.
  - destruct (parse_consumes f) as [Cv _].
    destruct (parse_consumes (S f)) as [Cv' _].
    split; [|split]; intros s L.
    + change (value_step (parse_elements (S f)) (parse_members (S f)) s
              = value_step (parse_elements f) (parse_members f) s).
      apply value_step_ext; intros r Lr; [apply He | apply Hm]; lia.
    + change (elements_step (parse_value (S f)) (parse_elements (S f)) s
              = elements_step (parse_value f) (parse_elements f) s).
      apply elements_step_ext; [exact Cv' | apply Hv; lia|].
      intros r Lr. apply He. lia.
    + change (members_step (parse_value (S f)) (parse_members (S f)) s
              = members_step (parse_value f) (parse_members f) s).
      apply members_step_ext; [exact Cv' | |]; intros r Lr;
        [apply Hv | apply Hm]; lia.
Qed.

(** More fuel than [JSON_parse] gives never changes the result. *)
Lemma parse_value_fuel f s :
  (2 * List.length s < f)%nat ->
  parse_value f s = parse_value (S (2 * List.length s)) s.
Proof.
  intros L.
  replace f with (S (2 * List.length s) + (f - S (2 * List.length s)))%nat
    by lia.
  generalize (f - S (2 * List.length s))%nat as k.
  induction k as [|k IH].
  - now rewrite Nat.add_0_r.
  - rewrite Nat.add_succ_r, <- IH.
    apply (proj1 (parse_fuel_step _)). lia.
Qed.

End Fuel.

(* ================================================================= *)
(** ** [JSON.parse] reads back what [JSON.stringify] writes *)

Section JSONRoundTrip.
Local Open Scope N_scope.

Lemma hex_value_digit d : d < 16 -> hex_value (hex_digit d) = Some d.
Proof.
  intros H. unfold hex_value, hex_digit, is_digit.
  destruct (d <? 10) eqn:E.
  - apply N.ltb_lt in E.
    replace ((48 <=? 48 + d) && (48 + d <=? 57)) with true.
    + f_equal. lia.
    + symmetry. apply andb_true_intro. split; apply N.leb_le; lia.
  - apply N.ltb_ge in E.
    replace ((48 <=? 87 + d) && (87 + d <=? 57)) with false.
    + replace ((97 <=? 87 + d) && (87 + d <=? 102)) with true.
      * f_equal. lia.
      * symmetry. apply andb_true_intro. split; apply N.leb_le; lia.
    + symmetry. apply andb_false_intro2. apply N.leb_gt. lia.
Qed.

Lemma hex4_escape c :
  c < 65536 ->
  hex4 (hex_digit (c / 4096 mod 16)) (hex_digit (c / 256 mod 16))
       (hex_digit (c / 16 mod 16)) (hex_digit (c mod 16)) = Some c.
Proof.
  intros H. unfold hex4.
  rewrite !hex_value_digit by (apply N.mod_lt; discriminate).
  f_equal.
  pose proof (N.div_mod c 16 ltac:(discriminate)).
  pose proof (N.div_mod (c / 16) 16 ltac:(discriminate)).
  pose proof (N.div_mod (c / 16 / 16) 16 ltac:(discriminate)).
  rewrite !N.Div0.div_div in *.
  change (16 * 16) with 256 in *. change (256 * 16) with 4096 in *.
  assert (c / 4096 < 16) by (apply N.Div0.div_lt_upper_bound; lia).
  rewrite (N.mod_small (c / 4096) 16) by assumption.
  lia.
Qed.

Lemma surrogate_bound c : is_surrogate c = true -> c < 65536.
Proof.
  unfold is_surrogate. intros H. apply andb_prop in H as [_ H].
  apply N.leb_le in H. lia.
Qed.

Lemma parse_chars_escape c tl :
  c < 65536 ->
  parse_chars (UnicodeEscape c ++ tl) = push_char c (parse_chars tl).
Proof.
  intros H. unfold UnicodeEscape.
  cbn [app parse_chars].
  change (92 =? 34) with false. change (92 =? 92) with true.
  change (117 =? 117) with true. cbv iota.
  now rewrite hex4_escape.
Qed.

Lemma parse_chars_plain c tl :
  (c =? 34) = false -> (c =? 92) = false -> (c <? 32) = false ->
  parse_chars (c :: tl) = push_char c (parse_chars tl).
Proof. intros E1 E2 E3. cbn [parse_chars]. now rewrite E1, E2, E3. Qed.

Lemma parse_chars_unit c tl :
  parse_chars (quote_unit c ++ tl) = push_char c (parse_chars tl).
Proof.
  unfold quote_unit.
  destruct (c =? 8) eqn:E8; [apply N.eqb_eq in E8; subst; reflexivity|].
  destruct (c =? 9) eqn:E9; [apply N.eqb_eq in E9; subst; reflexivity|].
  destruct (c =? 10) eqn:E10; [apply N.eqb_eq in E10; subst; reflexivity|].
  destruct (c =? 12) eqn:E12; [apply N.eqb_eq in E12; subst; reflexivity|].
  destruct (c =? 13) eqn:E13; [apply N.eqb_eq in E13; subst; reflexivity|].
  destruct (c =? 34) eqn:E34; [apply N.eqb_eq in E34; subst; reflexivity|].
  destruct (c =? 92) eqn:E92; [apply N.eqb_eq in E92; subst; reflexivity|].
  destruct ((c <? 32) || is_surrogate c) eqn:E.
  - apply parse_chars_escape. apply orb_prop in E as [E|E].
    + apply N.ltb_lt in E. lia.
    + now apply surrogate_bound.
  - apply orb_false_elim in E as [E _]. now apply parse_chars_plain.
Qed.

Lemma surrogate_plain c :
  55296 <= c -> (c =? 34) = false /\ (c =? 92) = false /\ (c <? 32) = false.
Proof.
  intros H. repeat split; try (apply N.eqb_neq; lia). apply N.ltb_ge. lia.
Qed.

Lemma parse_chars_quote_le n :
  forall s rest, (List.length s <= n)%nat ->
    parse_chars (quote_chars s ++ 34 :: rest) = Some (s, rest).
Proof.
  induction n as [|n IH]; intros s rest L.
  - destruct s; [reflexivity | simpl in L; lia].
  - destruct s as [|c t]; [reflexivity|].
    simpl in L. cbn [quote_chars].
    destruct (is_lead_surrogate c) eqn:Lc.
    + destruct t as [|d r].
      * rewrite parse_chars_unit. reflexivity.
      * destruct (is_trail_surrogate d) eqn:Td.
        -- unfold is_lead_surrogate in Lc. unfold is_trail_surrogate in Td.
           apply andb_prop in Lc as [Lc _]. apply andb_prop in Td as [Td _].
           apply N.leb_le in Lc. apply N.leb_le in Td.
           destruct (surrogate_plain c) as [A1 [A2 A3]]; [lia|].
           destruct (surrogate_plain d) as [B1 [B2 B3]]; [lia|].
           cbn [app]. rewrite parse_chars_plain by assumption.
           rewrite parse_chars_plain by assumption.
           rewrite IH by (simpl in L; lia). reflexivity.
        -- rewrite <- app_assoc, parse_chars_unit.
           rewrite IH by lia. reflexivity.
    + rewrite <- app_assoc, parse_chars_unit.
      rewrite IH by lia. reflexivity.
Qed.

Lemma parse_chars_quote s rest :
  parse_chars (quote_chars s ++ 34 :: rest) = Some (s, rest).
Proof. now apply (parse_chars_quote_le (List.length s)). Qed.

Lemma QuoteJSONString_app q rest :
  QuoteJSONString q ++ rest = 34 :: quote_chars q ++ 34 :: rest.
Proof. unfold QuoteJSONString. simpl. now rewrite <- app_assoc. Qed.

Lemma parse_value_string f q rest :
  parse_value (S f) (QuoteJSONString q ++ rest) = Some (JSString q, rest).
Proof.
  rewrite QuoteJSONString_app. cbn [parse_value]. unfold value_step.
  cbn [skip_ws].
  change (json_ws 34) with false. change (34 =? 34) with true. cbv iota.
  now rewrite parse_chars_quote.
Qed.

Lemma parse_elements_eq f s :
  parse_elements (S f) s =
  match parse_value f s with
  | None => None
  | Some (v, r) =>
      match skip_ws r with
      | [] => None
      | d :: r' =>
          if d =? 44 then
            match parse_elements f r' with
            | Some (vs, r'') => Some (v :: vs, r'')
            | None => None
            end
          else if d =? 93 then Some ([v], r')
          else None
      end
  end.
Proof. reflexivity. Qed.

Lemma parse_elements_strings qs :
  forall f rest, qs <> [] -> (List.length qs <= f)%nat ->
    parse_elements (S f) (join_comma (map QuoteJSONString qs) ++ 93 :: rest)
    = Some (map JSString qs, rest).
Proof.
  induction qs as [|q qs IH]; intros f rest NE L; [contradiction|].
  destruct f as [|f]; [simpl in L; lia|].
  rewrite parse_elements_eq.
  destruct qs as [|q2 qs].
  - cbn [map join_comma].
    rewrite parse_value_string. reflexivity.
  - change (join_comma (map QuoteJSONString (q :: q2 :: qs)))
      with (QuoteJSONString q ++ 44 :: join_comma (map QuoteJSONString (q2 :: qs))).
    rewrite <- app_assoc.
    rewrite parse_value_string.
    rewrite <- app_comm_cons. cbn [skip_ws].
    change (json_ws 44) with false. change (44 =? 44) with true. cbv iota.
    rewrite IH; [reflexivity | discriminate | simpl in *; lia].
Qed.

Lemma join_quote_head q qs rest :
  exists r, join_comma (map QuoteJSONString (q :: qs)) ++ rest = 34 :: r.
Proof. destruct qs; cbn [map join_comma]; unfold QuoteJSONString; simpl; eauto. Qed.

Lemma parse_value_array_eq f r :
  parse_value (S f) (91 :: r) =
  match skip_ws r with
  | [] => None
  | d :: r' =>
      if d =? 93 then Some (JSArray [], r')
      else match parse_elements f r with
           | Some (es, r'') => Some (JSArray es, r'')
           | None => None
           end
  end.
Proof. reflexivity. Qed.

Lemma parse_value_string_array qs f rest :
  (List.length qs <= f)%nat ->
  parse_value (S (S f)) (91 :: join_comma (map QuoteJSONString qs) ++ 93 :: rest)
  = Some (JSArray (map JSString qs), rest).
Proof.
  intros L. destruct qs as [|q qs]; [reflexivity|].
  rewrite parse_value_array_eq.
  rewrite parse_elements_strings by (discriminate || exact L).
  destruct (join_quote_head q qs (93 :: rest)) as [r ->]. reflexivity.
Qed.

Lemma stringify_state_strings n t qs :
  JSON_stringify_state n (JSString t) (JSArray (map JSString qs))
  = state_text t qs.
Proof.
  unfold JSON_stringify_state, state_text.
  cbn [SerializeJSONProperty flat_map map fst snd app join_comma].
  rewrite map_map. cbn [SerializeJSONProperty].
  repeat (rewrite <- !app_assoc; cbn [app]). reflexivity.
Qed.

Lemma parse_members_eq f s :
  parse_members (S f) s =
  match skip_ws s with
  | [] => None
  | q :: r0 =>
      if q =? 34 then
        match parse_chars r0 with
        | None => None
        | Some (k, r1) =>
            match skip_ws r1 with
            | [] => None
            | col :: r2 =>
                if col =? 58 then
                  match parse_value f r2 with
                  | None => None
                  | Some (v, r3) =>
                      match skip_ws r3 with
                      | [] => None
                      | d :: r4 =>
                          if d =? 44 then
                            match parse_members f r4 with
                            | Some (ms, r5) => Some ((k, v) :: ms, r5)
                            | None => None
                            end
                          else if d =? 125 then Some ([(k, v)], r4)
                          else None
                      end
                  end
                else None
            end
        end
      else None
  end.
Proof. reflexivity. Qed.

Lemma parse_value_object_eq f r :
  parse_value (S f) (123 :: r) =
  match skip_ws r with
  | [] => None
  | d :: r' =>
      if d =? 125 then Some (JSObject [], r')
      else match parse_members f r with
           | Some (ms, r'') => Some (make_object ms, r'')
           | None => None
           end
  end.
Proof. reflexivity. Qed.

Lemma parse_member_quoted f k tl :
  parse_members (S f) (QuoteJSONString k ++ 58 :: tl) =
  match parse_value f tl with
  | None => None
  | Some (v, r3) =>
      match skip_ws r3 with
      | [] => None
      | d :: r4 =>
          if d =? 44 then
            match parse_members f r4 with
            | Some (ms, r5) => Some ((k, v) :: ms, r5)
            | None => None
            end
          else if d =? 125 then Some ([(k, v)], r4)
          else None
      end
  end.
Proof.
  rewrite parse_members_eq, QuoteJSONString_app. cbn [skip_ws].
  change (json_ws 34) with false. change (34 =? 34) with true. cbv iota.
  rewrite parse_chars_quote. reflexivity.
Qed.

Lemma parse_state_text t qs f rest :
  (List.length qs <= f)%nat ->
  parse_value (S (S (S (S (S f))))) (state_text t qs ++ rest)
  = Some (JSObject [(str "title", JSString t);
                    (str "list", JSArray (map JSString qs))], rest).
Proof.
  intros L. unfold state_text.
  rewrite <- app_comm_cons, parse_value_object_eq.
  rewrite <- !app_assoc. rewrite <- app_comm_cons.
  rewrite parse_member_quoted.
  rewrite <- !app_assoc. rewrite parse_value_string.
  rewrite <- app_comm_cons. cbn [skip_ws].
  change (json_ws 44) with false. change (44 =? 44) with true. cbv iota.
  rewrite <- !app_assoc. rewrite <- app_comm_cons.
  rewrite parse_member_quoted.
  rewrite <- app_comm_cons. rewrite <- !app_assoc.
  change ([93; 125] ++ rest) with (93 :: 125 :: rest).
  rewrite parse_value_string_array by exact L.
  cbn [skip_ws]. change (json_ws 125) with false. cbv iota.
  change (125 =? 44) with false. change (125 =? 125) with true. cbv iota.
  rewrite QuoteJSONString_app. cbn [skip_ws].
  change (json_ws 34) with false. cbv iota. change (34 =? 125) with false.
  cbv iota. reflexivity.
Qed.

Lemma join_comma_length qs :
  (List.length qs <= List.length (join_comma (map QuoteJSONString qs)))%nat.
Proof.
  induction qs as [|q qs IH]; [apply Nat.le_refl|].
  destruct qs as [|q2 qs].
  - cbn. lia.
  - change (join_comma (map QuoteJSONString (q :: q2 :: qs)))
      with (QuoteJSONString q ++ 44 :: join_comma (map QuoteJSONString (q2 :: qs))).
    rewrite length_app. cbn [List.length] in *. lia.
Qed.

Lemma state_text_length t qs :
  (List.length qs + 4 <= List.length (state_text t qs))%nat.
Proof.
  unfold state_text. cbn [List.length].
  repeat (rewrite length_app; cbn [List.length]).
  pose proof (join_comma_length qs). lia.
Qed.

(** Parsing the text written for a title and a list of strings gives an
    object with these two properties, in this order. *)
Lemma JSON_parse_stringify n t qs :
  JSON_parse (JSON_stringify_state n (JSString t) (JSArray (map JSString qs)))
  = Normal (JSObject [(str "title", JSString t);
                      (str "list", JSArray (map JSString qs))]).
Proof.
  rewrite stringify_state_strings. unfold JSON_parse.
  pose proof (state_text_length t qs) as L.
  replace (parse_value (S (2 * List.length (state_text t qs))) (state_text t qs))
    with (parse_value (S (S (S (S (S (2 * List.length (state_text t qs) - 4))))))
            (state_text t qs ++ []))
    by (rewrite app_nil_r; f_equal; lia).
  rewrite parse_state_text by lia. reflexivity.
Qed.

End JSONRoundTrip.

(* ================================================================= *)
(** ** [splice] *)

Section Splice.
Context {A : Type}.

Lemma remove_at_app (l1 : list A) x l2 :
  remove_at (List.length l1) (l1 ++ x :: l2) = l1 ++ l2.
Proof.
  unfold remove_at.
  rewrite firstn_app, firstn_all, Nat.sub_diag. cbn [firstn].
  rewrite app_nil_r.
  replace (S (List.length l1)) with (List.length l1 + 1) by lia.
  rewrite skipn_app, skipn_all2 by lia.
  replace (List.length l1 + 1 - List.length l1) with 1 by lia.
  reflexivity.
Qed.

Lemma remove_at_beyond n (l : list A) :
  List.length l <= n -> remove_at n l = l.
Proof.
  intros H. unfold remove_at.
  rewrite firstn_all2, skipn_all2 by lia. apply app_nil_r.
Qed.

Lemma remove_at_parts n (l : list A) :
  exists l1 removed l2,
    l = l1 ++ removed ++ l2 /\ List.length removed <= 1
    /\ remove_at n l = l1 ++ l2.
Proof.
  exists (firstn n l), (firstn 1 (skipn n l)), (skipn (S n) l).
  split; [|split].
  - change (S n) with (1 + n). rewrite <- skipn_skipn.
    now rewrite !firstn_skipn.
  - rewrite length_firstn. lia.
  - reflexivity.
Qed.

(** [splice(index, 1)] removes the element at the start position it
    computes. *)
Lemma splice1_remove_at index (l : list A) :
  splice1 index l =
  remove_at (Z.to_nat (if (index <? 0)%Z
                       then Z.max (Z.of_nat (List.length l) + index) 0
                       else Z.min index (Z.of_nat (List.length l)))) l.
Proof.
  unfold splice1, remove_at.
  set (len := Z.of_nat (List.length l)).
  set (start := if (index <? 0)%Z then Z.max (len + index) 0 else Z.min index len).
  assert (B : (0 <= start <= len)%Z).
  { subst start. destruct (index <? 0)%Z eqn:E.
    - apply Z.ltb_lt in E. lia.
    - apply Z.ltb_ge in E. lia. }
  f_equal.
  destruct (Z.eq_dec start len) as [E|E].
  - rewrite !skipn_all2; [reflexivity| |]; subst len; lia.
  - f_equal. lia.
Qed.

Lemma splice1_beyond index (l : list A) :
  (Z.of_nat (List.length l) <= index)%Z -> splice1 index l = l.
Proof.
  intros H. rewrite splice1_remove_at.
  replace (index <? 0)%Z with false by (symmetry; apply Z.ltb_ge; lia).
  apply remove_at_beyond. lia.
Qed.

Lemma splice1_at (l1 : list A) x l2 :
  splice1 (Z.of_nat (List.length l1)) (l1 ++ x :: l2) = l1 ++ l2.
Proof.
  rewrite splice1_remove_at.
  replace (Z.of_nat (List.length l1) <? 0)%Z with false
    by (symmetry; apply Z.ltb_ge; lia).
  rewrite length_app. cbn [List.length].
  replace (Z.to_nat _) with (List.length l1) by lia.
  apply remove_at_app.
Qed.

Lemma splice1_from_end (l1 : list A) x l2 :
  splice1 (- Z.of_nat (S (List.length l2))) (l1 ++ x :: l2) = l1 ++ l2.
Proof.
  rewrite splice1_remove_at.
  replace (- Z.of_nat (S (List.length l2)) <? 0)%Z with true
    by (symmetry; apply Z.ltb_lt; lia).
  rewrite length_app. cbn [List.length].
  replace (Z.to_nat _) with (List.length l1) by lia.
  apply remove_at_app.
Qed.

Lemma splice1_below index (x : A) l2 :
  (index < - Z.of_nat (S (List.length l2)))%Z ->
  splice1 index (x :: l2) = l2.
Proof.
  intros H. rewrite splice1_remove_at.
  replace (index <? 0)%Z with true by (symmetry; apply Z.ltb_lt; lia).
  cbn [List.length].
  replace (Z.to_nat _) with 0 by lia.
  reflexivity.
Qed.

Lemma splice1_nil index : splice1 index (@nil A) = [].
Proof.
  rewrite splice1_remove_at. apply remove_at_beyond. cbn. lia.
Qed.

End Splice.

(* ================================================================= *)
(** ** The reference compressor meets the contract *)

Lemma ref_decode_bits p :
  forall acc w rest,
    ref_decode acc w (pos_bits p ++ 45%N :: rest)
    = match ref_decode 0%N 1%N rest with
      | Some t => Some ((acc + w * Npos p)%N :: t)
      | None => None
      end.
Proof.
  induction p as [q IH|q IH|]; intros acc w rest; cbn [pos_bits app ref_decode].
  - change (66 =? 45)%N with false. change (66 =? 65)%N with false.
    change (66 =? 66)%N with true. cbv iota. rewrite IH.
    destruct (ref_decode 0%N 1%N rest); [|reflexivity]. do 2 f_equal. lia.
  - change (65 =? 45)%N with false. change (65 =? 65)%N with true.
    cbv iota. rewrite IH.
    destruct (ref_decode 0%N 1%N rest); [|reflexivity]. do 2 f_equal. lia.
  - change (66 =? 45)%N with false. change (66 =? 65)%N with false.
    change (66 =? 66)%N with true. change (45 =? 45)%N with true. cbv iota.
    destruct (ref_decode 0%N 1%N rest); [|reflexivity]. do 2 f_equal. lia.
Qed.

Lemma ref_decode_units s :
  ref_decode 0%N 1%N (flat_map (fun c => unit_bits c ++ [45%N]) s) = Some s.
Proof.
  induction s as [|c s IH]; [reflexivity|].
  cbn [flat_map]. rewrite <- app_assoc. cbn [app].
  destruct c as [|p]; cbn [unit_bits].
  - cbn [app ref_decode]. change (45 =? 45)%N with true. cbv iota.
    now rewrite IH.
  - rewrite ref_decode_bits, IH. reflexivity.
Qed.

Lemma pos_bits_uri_safe p : forallb uri_safe (pos_bits p) = true.
Proof. induction p; cbn [pos_bits forallb]; rewrite ?IHp; reflexivity. Qed.

Lemma ref_compress_uri_safe s : forallb uri_safe (ref_compress s) = true.
Proof.
  unfold ref_compress. cbn [forallb]. change (uri_safe 81) with true.
  cbn [andb]. induction s as [|c s IH]; [reflexivity|].
  cbn [flat_map]. rewrite !forallb_app, IH.
  destruct c; cbn [unit_bits]; rewrite ?pos_bits_uri_safe; reflexivity.
Qed.

Lemma ref_contract : LZStringContract ref_platform.
Proof.
  split.
  - intros s. apply ref_decode_units.
  - apply ref_compress_uri_safe.
  - reflexivity.
Qed.

(* ================================================================= *)
(** ** The methods *)

Section Methods.
Context `{P : Platform}.

Lemma hashState_eq st :
  hashState st
  = (Normal tt, {| qList := qList st; gName := gName st;
                   location_hash := assign_hash (encode (gName st) (qList st)) |}).
Proof. reflexivity. Qed.

Lemma published_eq st :
  published st = assign_hash (encode (gName st) (qList st)).
Proof. reflexivity. Qed.

Lemma assign_hash_slice v :
  forallb uri_safe v = true -> slice1 (assign_hash v) = v.
Proof.
  destruct v as [|c r]; [reflexivity|]. cbn [forallb].
  intros H. apply andb_prop in H as [H _]. unfold assign_hash.
  destruct (c =? 35)%N eqn:E.
  - apply N.eqb_eq in E. subst c. discriminate H.
  - reflexivity.
Qed.

(** What [#unhashState] does, by the value [JSON.parse] returns. *)
Lemma unhashState_eq st :
  unhashState st =
  match JSON_parse (fragment_text st) with
  | Throw _ | Normal JSNull | Normal JSUndefined =>
      (Normal DecodeError, emptied st)
  | Normal obj =>
      (Normal Success,
       {| qList := field (str "list") obj; gName := field (str "title") obj;
          location_hash := location_hash st |})
  end.
Proof.
  unfold unhashState, try_catch_M, parse_fragment, mbind, read, lift,
    fragment_text.
  destruct (JSON_parse _) as [[| | | | | |]|e]; reflexivity.
Qed.

Context `{C : !LZStringContract P}.

Lemma fragment_text_published st0 title list :
  location_hash st0 = assign_hash (encode title list) ->
  fragment_text st0 = JSON_stringify_state NumberToJSON title list.
Proof.
  intros H. unfold fragment_text. rewrite H.
  rewrite assign_hash_slice by apply compress_uri_safe.
  unfold encode. now rewrite decompress_compress.
Qed.

Lemma unhashState_published title qs st0 h :
  location_hash st0 = published (game title qs h) ->
  unhashState st0 = (Normal Success, game title qs (location_hash st0)).
Proof.
  intros H. rewrite unhashState_eq.
  rewrite (fragment_text_published st0 (JSString title) (JSArray (map JSString qs)))
    by exact H.
  rewrite JSON_parse_stringify. reflexivity.
Qed.

Lemma unhashState_empty st :
  location_hash st = [] -> unhashState st = (Normal DecodeError, emptied st).
Proof.
  intros H. rewrite unhashState_eq. unfold fragment_text. rewrite H.
  cbn [slice1 tl]. rewrite decompress_empty. reflexivity.
Qed.

Lemma unhashState_null st :
  decompressFromEncodedURIComponent (slice1 (location_hash st)) = None ->
  unhashState st = (Normal DecodeError, emptied st).
Proof.
  intros H. rewrite unhashState_eq. unfold fragment_text. rewrite H.
  reflexivity.
Qed.

Lemma unhashState_malformed st e :
  JSON_parse (fragment_text st) = Throw e ->
  unhashState st = (Normal DecodeError, emptied st).
Proof. intros H. rewrite unhashState_eq, H. reflexivity. Qed.

(** The second revision never lets an exception out of
    [#unhashState]. *)
Lemma unhashState_returns st :
  exists r st', unhashState st = (Normal r, st').
Proof.
  rewrite unhashState_eq.
  destruct (JSON_parse _) as [[| | | | | |]|e]; eauto.
Qed.

Lemma new_hostGame_returns hash :
  exists st', new_hostGame hash = (Normal tt, st').
Proof.
  unfold new_hostGame, mbind.
  destruct (unhashState_returns (initial hash)) as [r [st' E]].
  rewrite E. exists st'. reflexivity.
Qed.

End Methods.

(* ================================================================= *)
(** ** Calls and sessions *)

Section Calls.
Context `{P : Platform}.

Lemma qListDelete_eq index l g h :
  qListDelete index {| qList := JSArray l; gName := g; location_hash := h |}
  = (Normal tt,
     {| qList := JSArray (splice1 index l); gName := g;
        location_hash := assign_hash (encode g (JSArray (splice1 index l))) |}).
Proof. reflexivity. Qed.

Lemma valid_question_add s :
  valid_question s <-> trim s <> [] /\ (20 <? wordCount s) = false.
Proof.
  unfold valid_question. split.
  - intros [B L]. rewrite wordCount_words by exact B. split.
    + intros T. apply trim_nil in T. congruence.
    + apply Nat.ltb_ge. exact L.
  - intros [T L]. assert (B : blank s = false).
    { destruct (blank s) eqn:B; [|reflexivity].
      apply trim_nil in B. contradiction. }
    rewrite wordCount_words in L by exact B. split; [exact B|].
    now apply Nat.ltb_ge.
Qed.

Lemma qListAdd_valid s l g h :
  valid_question s ->
  qListAdd (JSString s) {| qList := JSArray l; gName := g; location_hash := h |}
  = (Normal Success,
     {| qList := JSArray (l ++ [JSString s]); gName := g;
        location_hash := assign_hash (encode g (JSArray (l ++ [JSString s]))) |}).
Proof.
  intros V. apply valid_question_add in V as [T L].
  unfold qListAdd. destruct (trim s) as [|c r]; [contradiction|].
  rewrite L. reflexivity.
Qed.

Lemma qListAdd_invalid s st :
  ~ valid_question s -> snd (qListAdd (JSString s) st) = st.
Proof.
  intros V. unfold qListAdd.
  destruct (trim s) as [|c r] eqn:T; [reflexivity|].
  destruct (20 <? _) eqn:L; [reflexivity|].
  exfalso. apply V. apply valid_question_add. rewrite T. split;
    [discriminate | exact L].
Qed.

Lemma valid_question_dec s : {valid_question s} + {~ valid_question s}.
Proof.
  unfold valid_question.
  destruct (blank s); [right; intros [H _]; discriminate|].
  destruct (le_dec (List.length (whitespace_delimited_words s)) 20).
  - left. auto.
  - right. intros [_ H]. contradiction.
Qed.

Lemma splice1_map {A B} (f : A -> B) index l :
  splice1 index (map f l) = map f (splice1 index l).
Proof.
  unfold splice1. rewrite length_map, map_app, firstn_map, skipn_map.
  reflexivity.
Qed.

Lemma splice1_Forall {A} (Q : A -> Prop) index l :
  Forall Q l -> Forall Q (splice1 index l).
Proof.
  intros H. unfold splice1. apply Forall_app. split.
  - rewrite <- (firstn_skipn (Z.to_nat
      (if (index <? 0)%Z then Z.max (Z.of_nat (List.length l) + index) 0
       else Z.min index (Z.of_nat (List.length l)))) l) in H.
    now apply Forall_app in H.
  - match goal with |- Forall Q (skipn ?n l) =>
      rewrite <- (firstn_skipn n l) in H end.
    now apply Forall_app in H.
Qed.

(** Every call keeps the questions valid. *)
Lemma run_call_valid st c :
  questions_valid st -> questions_valid (run_call st c).
Proof.
  intros [qs [E F]]. destruct st as [l g h]. cbn in E. subst l.
  destruct c as [item|index|name]; cbn [run_call].
  - destruct item as [| | | |s| |];
      try (exists qs; split; [reflexivity | exact F]).
    destruct (valid_question_dec s) as [V|V].
    + rewrite qListAdd_valid by exact V. exists (qs ++ [s]). split.
      * cbn. now rewrite map_app.
      * apply Forall_app. split; [exact F | now constructor].
    + rewrite qListAdd_invalid by exact V. now exists qs.
  - exists (splice1 index qs). split.
    + cbn. now rewrite splice1_map.
    + now apply splice1_Forall.
  - now exists qs.
Qed.

Lemma run_calls_valid cs :
  forall st, questions_valid st -> questions_valid (run_calls cs st).
Proof.
  induction cs as [|c cs IH]; intros st H; [exact H|].
  cbn. apply IH. now apply run_call_valid.
Qed.

Context `{C : !LZStringContract P}.

Lemma new_hostGame_empty : snd (new_hostGame []) = initial [].
Proof.
  unfold new_hostGame, mbind.
  rewrite unhashState_empty by reflexivity. reflexivity.
Qed.

Lemma new_hostGame_published title qs h :
  snd (new_hostGame (published (game title qs h)))
  = game title qs (published (game title qs h)).
Proof.
  unfold new_hostGame, mbind.
  rewrite (unhashState_published title qs _ h) by reflexivity.
  reflexivity.
Qed.

(** The first revision decodes a published state as the second does. *)
Lemma Rev1_unhashState_published title qs st0 h :
  location_hash st0 = published (game title qs h) ->
  Rev1.unhashState st0 = (Normal Success, game title qs (location_hash st0)).
Proof.
  intros H. unfold Rev1.unhashState, parse_fragment, mbind, read, lift.
  change (ToString_nullable
            (decompressFromEncodedURIComponent (slice1 (location_hash st0))))
    with (fragment_text st0).
  rewrite (fragment_text_published st0 (JSString title) (JSArray (map JSString qs)))
    by exact H.
  rewrite JSON_parse_stringify. reflexivity.
Qed.

(** On the second revision a fragment that is empty, that does not
    decompress, or whose text is not JSON gives [DecodeError] and the
    empty state, and the constructor returns. *)
Lemma unhashState_decode_error st :
  (location_hash st = []
   \/ slice1 (location_hash st) = []
   \/ decompressFromEncodedURIComponent (slice1 (location_hash st)) = None
   \/ exists e, JSON_parse (fragment_text st) = Throw e) ->
  unhashState st = (Normal DecodeError, emptied st).
Proof.
  intros [H|[H|[H|[e H]]]].
  - now apply unhashState_empty.
  - apply unhashState_null. rewrite H. apply decompress_empty.
  - now apply unhashState_null.
  - now apply unhashState_malformed with (e := e).
Qed.

End Calls.

(* ================================================================= *)
(** ** The claims of the specification *)

Section Claims.
Context `{P : Platform} `{C : !LZStringContract P}.

(** C1.  For a valid state, [#unhashState] on a page whose hash is the
    one [#hashState] published for that state succeeds and recovers
    the title and every question, in order. *)
Theorem decode_encode_round_trip (title : jsstring) (qs : list jsstring)
  (h : jsstring) (st0 : State) :
  Forall valid_question qs ->
  location_hash st0 = published (game title qs h) ->
  unhashState st0 = (Normal Success, game title qs (location_hash st0)).
Proof.
  intros _ H. rewrite unhashState_eq.
  rewrite (fragment_text_published st0 (JSString title) (JSArray (map JSString qs)))
    by exact H.
  rewrite JSON_parse_stringify. reflexivity.
Qed.

(** C2.  [qListAdd] on a state whose list is an array: an item that is
    not a string fails with [NotAStringError]; a blank string fails
    with [EmptyQuestionError]; a string of more than 20
    white-space-delimited words fails with [TooManyWordsError] carrying
    the number of words; a failure leaves the state as it was; any
    other string is appended at the end of the list and the hash is
    written again.  A question of 21 words reports 21. *)
Theorem qListAdd_validation (item : JSValue) (l : list JSValue)
  (g : JSValue) (h : jsstring) :
  let st := {| qList := JSArray l; gName := g; location_hash := h |} in
  qListAdd item st =
    match item with
    | JSString s =>
        if blank s then (Normal EmptyQuestionError, st)
        else
          let n := List.length (whitespace_delimited_words s) in
          if 20 <? n then (Normal (TooManyWordsError n), st)
          else (Normal Success,
                {| qList := JSArray (l ++ [item]); gName := g;
                   location_hash :=
                     assign_hash (encode g (JSArray (l ++ [item]))) |})
    | _ => (Normal NotAStringError, st)
    end
  /\ fst (qListAdd
            (JSString (str "a b c d e f g h i j k l m n o p q r s t u")) st)
     = Normal (TooManyWordsError 21)
  /\ error (TooManyWordsError 21)
     = Some (str "Question must be 20 words or less (currently 21 words)").
Proof.
  intros st. split; [|split; reflexivity].
  destruct item as [| | | |s| |]; try reflexivity.
  unfold qListAdd. destruct (blank s) eqn:B.
  - apply trim_nil in B. rewrite B. reflexivity.
  - destruct (trim s) as [|c r] eqn:T.
    + apply trim_nil in T. congruence.
    + rewrite wordCount_words by exact B.
      cbv zeta. destruct (20 <? _); reflexivity.
Qed.

(** C3.  When [qListAdd] returns a failure, the state after the call,
    hash included, is the state before it. *)
Theorem qListAdd_failure_unchanged (item : JSValue) (st st' : State)
  (r : Result) :
  qListAdd item st = (Normal r, st') -> success r = false -> st' = st.
Proof.
  unfold qListAdd.
  destruct item as [| | | |s| |];
    try (intros H _; injection H as _ <-; reflexivity).
  destruct (trim s) as [|c t];
    [intros H _; injection H as _ <-; reflexivity|].
  destruct (20 <? _);
    [intros H _; injection H as _ <-; reflexivity|].
  unfold mbind, qList_push.
  destruct (qList st); cbn; intros H; try discriminate H.
  injection H as <- _. discriminate.
Qed.

(** C4, as the code has it.  On a state whose list is an array,
    [qListDelete] never throws and writes the hash again for the new
    state.  An index at or beyond the length leaves the list as it is;
    an index from 0 below the length removes exactly the element at
    that position; a negative index counts from the end: [-k] removes
    the [k]-th element from the end, and an index below minus the
    length removes the first element (none from an empty list). *)
Theorem qListDelete_splice (g : JSValue) (h : jsstring) :
  (forall index l,
      qListDelete index {| qList := JSArray l; gName := g; location_hash := h |}
      = (Normal tt,
         {| qList := JSArray (splice1 index l); gName := g;
            location_hash :=
              assign_hash (encode g (JSArray (splice1 index l))) |}))
  /\ (forall index (l : list JSValue),
        (Z.of_nat (List.length l) <= index)%Z -> splice1 index l = l)
  /\ (forall (l1 : list JSValue) x l2,
        splice1 (Z.of_nat (List.length l1)) (l1 ++ x :: l2) = l1 ++ l2)
  /\ (forall (l1 : list JSValue) x l2,
        splice1 (- Z.of_nat (S (List.length l2))) (l1 ++ x :: l2) = l1 ++ l2)
  /\ (forall index (x : JSValue) l2,
        (index < - Z.of_nat (S (List.length l2)))%Z ->
        splice1 index (x :: l2) = l2)
  /\ (forall index, splice1 index (@nil JSValue) = []).
Proof.
  repeat split.
  - apply splice1_beyond.
  - apply splice1_at.
  - apply splice1_from_end.
  - apply splice1_below.
  - apply splice1_nil.
Qed.

(** C5, on the first revision.  When the fragment decompresses to a
    text that [JSON.parse] rejects, [#unhashState] of the first
    revision returns no result: the [SyntaxError] leaves it and leaves
    the constructor, the state untouched.  The second revision catches
    it, see [unhashState_decode_error]. *)
Theorem Rev1_unhashState_throws (hash : jsstring) (e : JSError) :
  JSON_parse (fragment_text (initial hash)) = Throw e ->
  Rev1.unhashState (initial hash) = (Throw e, initial hash)
  /\ Rev1.new_hostGame hash = (Throw e, initial hash).
Proof.
  intros H. unfold Rev1.new_hostGame, Rev1.unhashState, parse_fragment,
    mbind, read, lift.
  unfold fragment_text in H. rewrite H. split; reflexivity.
Qed.

(** C6, as the code has it.  [#unhashState] either fails and resets
    both fields, which it does exactly when [JSON.parse] throws or
    returns [null], or succeeds and sets the title and the list to the
    [title] and [list] properties of the parsed value, each [undefined]
    when the value has no such property. *)
Theorem unhashState_all_or_nothing (st : State) :
  (unhashState st = (Normal DecodeError, emptied st)
   /\ (JSON_parse (fragment_text st) = Normal JSNull
       \/ JSON_parse (fragment_text st) = Normal JSUndefined
       \/ exists e, JSON_parse (fragment_text st) = Throw e))
  \/ (exists obj,
        JSON_parse (fragment_text st) = Normal obj
        /\ obj <> JSNull /\ obj <> JSUndefined
        /\ unhashState st
           = (Normal Success,
              {| qList := field (str "list") obj;
                 gName := field (str "title") obj;
                 location_hash := location_hash st |})).
Proof.
  rewrite unhashState_eq.
  destruct (JSON_parse (fragment_text st)) as [obj|e].
  - destruct obj;
      try (right; eexists; repeat split; [discriminate | discriminate]);
      left; split; auto.
  - left. split; [reflexivity|]. right. right. now exists e.
Qed.

(** C7.  The hash [#hashState] writes is [encode] of the title and the
    list, whatever the hash was before: two states with the same title
    and the same list publish the same string, and writing the hash a
    second time changes nothing. *)
Theorem encode_deterministic (title list : JSValue) (h1 h2 : jsstring) :
  published {| qList := list; gName := title; location_hash := h1 |}
  = published {| qList := list; gName := title; location_hash := h2 |}
  /\ published {| qList := list; gName := title; location_hash := h1 |}
     = assign_hash (encode title list)
  /\ (forall st1 st2,
        gName st1 = gName st2 -> qList st1 = qList st2 ->
        published st1 = published st2)
  /\ hashState (snd (hashState
                       {| qList := list; gName := title; location_hash := h1 |}))
     = hashState {| qList := list; gName := title; location_hash := h1 |}.
Proof.
  split; [reflexivity | split; [reflexivity | split; [|reflexivity]]].
  intros st1 st2 Hg Hq. rewrite !published_eq. now rewrite Hg, Hq.
Qed.

(** C8, as the code has it.  In a session that starts on a page with
    an empty hash, or with the hash published for a valid state, or with
    any hash that the constructor decodes to a list of valid questions,
    every question of the list is valid after any calls of [qListAdd],
    [qListDelete] and [setGName]. *)
Theorem questions_valid_session (hash : jsstring) (cs : list call) :
  (hash = []
   \/ (exists title qs h,
         Forall valid_question qs /\ hash = published (game title qs h))
   \/ questions_valid (snd (new_hostGame hash))) ->
  questions_valid (session hash cs).
Proof.
  intros H. unfold session. apply run_calls_valid.
  destruct H as [->|[[title [qs [h [F ->]]]]|H]].
  - rewrite new_hostGame_empty. exists []. split; [reflexivity | constructor].
  - rewrite new_hostGame_published. now exists qs.
  - exact H.
Qed.

(** C9.  [qListAdd] appends at the end; [qListDelete] takes at most one
    element out and leaves the others in their order; decoding the
    published hash gives the questions in their order; adding A, B and
    C and deleting index 1 leaves A and C. *)
Theorem question_order_preserved (s : jsstring) (l : list JSValue)
  (g : JSValue) (h : jsstring) (index : Z) (title : jsstring)
  (qs : list jsstring) (st0 : State) :
  valid_question s ->
  location_hash st0 = published (game title qs h) ->
  qList (snd (qListAdd (JSString s)
                {| qList := JSArray l; gName := g; location_hash := h |}))
  = JSArray (l ++ [JSString s])
  /\ (exists l1 removed l2,
        l = l1 ++ removed ++ l2 /\ List.length removed <= 1
        /\ qList (snd (qListDelete index
                         {| qList := JSArray l; gName := g; location_hash := h |}))
           = JSArray (l1 ++ l2))
  /\ qList (snd (unhashState st0)) = JSArray (map JSString qs)
  /\ qList (run_calls [CallAdd (JSString (str "A")); CallAdd (JSString (str "B"));
                       CallAdd (JSString (str "C")); CallDelete 1]
              (initial []))
     = JSArray [JSString (str "A"); JSString (str "C")].
Proof.
  intros V H. split; [|split; [|split]].
  - now rewrite qListAdd_valid.
  - cbn. rewrite splice1_remove_at.
    destruct (remove_at_parts
                (Z.to_nat (if (index <? 0)%Z
                           then Z.max (Z.of_nat (List.length l) + index) 0
                           else Z.min index (Z.of_nat (List.length l)))) l)
      as [l1 [rm [l2 [E1 [E2 E3]]]]].
    exists l1, rm, l2. rewrite E3. auto.
  - now rewrite (unhashState_published title qs st0 h).
  - reflexivity.
Qed.

(** C10.  A valid question is appended as it was given, white space
    around it included, and [getQuestions] then returns the list with
    that very string at its end. *)
Theorem qListAdd_verbatim (s : jsstring) (l : list JSValue) (g : JSValue)
  (h : jsstring) :
  valid_question s ->
  fst (qListAdd (JSString s)
         {| qList := JSArray l; gName := g; location_hash := h |})
  = Normal Success
  /\ fst (getQuestions
            (snd (qListAdd (JSString s)
                    {| qList := JSArray l; gName := g; location_hash := h |})))
     = Normal (JSArray (l ++ [JSString s])).
Proof. intros V. rewrite qListAdd_valid by exact V. split; reflexivity. Qed.

End Claims.

(* ================================================================= *)
(** ** The claims on concrete inputs, with the reference compressor *)

Lemma valid_trivia : valid_question (str "What year did WWII end?").
Proof. split; [reflexivity | vm_compute; lia]. Defined.

Lemma valid_hello : valid_question (str " hello ").
Proof. split; [reflexivity | vm_compute; lia]. Defined.

(** C1 on the state of the specification's end-to-end example. *)
Lemma decode_encode_round_trip_witness :
  Forall valid_question [str "What year did WWII end?"]
  /\ unhashState (P := ref_platform)
       (initial (published (P := ref_platform)
                   (game (str "Trivia Night") [str "What year did WWII end?"] [])))
     = (Normal Success,
        game (str "Trivia Night") [str "What year did WWII end?"]
          (published (P := ref_platform)
             (game (str "Trivia Night") [str "What year did WWII end?"] []))).
Proof.
  split.
  - constructor; [exact valid_trivia | constructor].
  - apply (decode_encode_round_trip (P := ref_platform) (C := ref_contract)
             (str "Trivia Night") [str "What year did WWII end?"] []).
    + constructor; [exact valid_trivia | constructor].
    + reflexivity.
Defined.

(** C3 on a blank question. *)
Lemma qListAdd_failure_unchanged_witness :
  qListAdd (P := ref_platform) (JSString (str "   "))
    (game (str "T") [str "Q"] (str "#h"))
  = (Normal EmptyQuestionError, game (str "T") [str "Q"] (str "#h"))
  /\ success EmptyQuestionError = false
  /\ game (str "T") [str "Q"] (str "#h") = game (str "T") [str "Q"] (str "#h").
Proof.
  split; [reflexivity | split; [reflexivity|]].
  apply (qListAdd_failure_unchanged (P := ref_platform) (JSString (str "   "))
           (game (str "T") [str "Q"] (str "#h"))
           (game (str "T") [str "Q"] (str "#h")) EmptyQuestionError);
    reflexivity.
Defined.

(** C4 as the specification states it fails at index -1: the last
    question is removed. *)
Lemma qListDelete_negative_index :
  (-1 < 0)%Z
  /\ qList (snd (qListDelete (P := ref_platform) (-1)
                   (game [] [str "A"; str "B"] [])))
     = JSArray [JSString (str "A")]
  /\ JSArray [JSString (str "A")]
     <> qList (game [] [str "A"; str "B"] []).
Proof. split; [reflexivity | split; [reflexivity | discriminate]]. Qed.

(** C5 on the first revision, on a page whose hash is [#Q]: the
    fragment decompresses to the empty text, which is not JSON. *)
Lemma Rev1_unhashState_throws_witness :
  fragment_text (P := ref_platform) (initial (str "#Q")) = []
  /\ JSON_parse (fragment_text (P := ref_platform) (initial (str "#Q")))
     = Throw SyntaxError
  /\ Rev1.unhashState (P := ref_platform) (initial (str "#Q"))
     = (Throw SyntaxError, initial (str "#Q"))
  /\ Rev1.new_hostGame (P := ref_platform) (str "#Q")
     = (Throw SyntaxError, initial (str "#Q")).
Proof.
  split; [reflexivity | split; [reflexivity|]].
  apply (Rev1_unhashState_throws (P := ref_platform) (str "#Q") SyntaxError).
  reflexivity.
Defined.

(** The second revision on the same page, and on a page without hash:
    [DecodeError] and the empty state. *)
Example unhashState_decode_failures :
  unhashState (P := ref_platform) (initial (str "#Q"))
  = (Normal DecodeError, initial (str "#Q"))
  /\ unhashState (P := ref_platform) (initial [])
     = (Normal DecodeError, initial [])
  /\ new_hostGame (P := ref_platform) (str "#not-valid-compressed-data")
     = (Normal tt, initial (str "#not-valid-compressed-data")).
Proof. repeat split. Qed.

(** C6 as the specification states it fails on a fragment whose object
    has a title and no list: the call succeeds, the title is set and
    the list is [undefined]. *)
Lemma unhashState_missing_list :
  JSON_parse title_only_text
  = Normal (JSObject [(str "title", JSString (str "x"))])
  /\ fragment_text (P := ref_platform)
       (initial (35%N :: ref_compress title_only_text))
     = title_only_text
  /\ unhashState (P := ref_platform)
       (initial (35%N :: ref_compress title_only_text))
     = (Normal Success,
        {| qList := JSUndefined; gName := JSString (str "x");
           location_hash := 35%N :: ref_compress title_only_text |})
  /\ Success <> DecodeError.
Proof.
  split; [reflexivity | split; [reflexivity | split; [reflexivity|]]].
  discriminate.
Qed.

(** C8 as the specification states it fails on a page loaded with a
    fragment whose list holds an empty question. *)
Lemma hydrated_question_invalid :
  qList (session (P := ref_platform)
           (35%N :: ref_compress empty_question_text) [])
  = JSArray [JSString []]
  /\ ~ valid_question []
  /\ ~ questions_valid
         (session (P := ref_platform)
            (35%N :: ref_compress empty_question_text) []).
Proof.
  assert (E : qList (session (P := ref_platform)
                       (35%N :: ref_compress empty_question_text) [])
              = JSArray [JSString []]) by reflexivity.
  assert (V : ~ valid_question []) by (intros [B _]; discriminate B).
  split; [exact E | split; [exact V|]].
  intros [qs [Q F]]. rewrite E in Q.
  destruct qs as [|q qs]; [discriminate Q|].
  injection Q as Q _. subst q. inversion F. contradiction.
Qed.

(** C8 on a session that starts from a published state. *)
Lemma questions_valid_session_witness :
  (exists title qs h,
      Forall valid_question qs
      /\ published (P := ref_platform)
           (game (str "Trivia Night") [str "What year did WWII end?"] [])
         = published (P := ref_platform) (game title qs h))
  /\ questions_valid
       (session (P := ref_platform)
          (published (P := ref_platform)
             (game (str "Trivia Night") [str "What year did WWII end?"] []))
          [CallAdd (JSString (str " hello ")); CallAdd (JSString (str "  "));
           CallDelete 0; CallSetName (JSString (str "Quiz"))]).
Proof.
  assert (H : exists title qs h,
             Forall valid_question qs
             /\ published (P := ref_platform)
                  (game (str "Trivia Night") [str "What year did WWII end?"] [])
                = published (P := ref_platform) (game title qs h)).
  { exists (str "Trivia Night"), [str "What year did WWII end?"], [].
    split; [constructor; [exact valid_trivia | constructor] | reflexivity]. }
  split; [exact H|].
  exact (questions_valid_session (P := ref_platform) (C := ref_contract) _ _
           (or_intror (or_introl H))).
Defined.

(** C9 on the list of the specification's example. *)
Lemma question_order_preserved_witness :
  valid_question (str " hello ")
  /\ qList (snd (qListAdd (P := ref_platform) (JSString (str " hello "))
                   (game [] [str "A"; str "B"] [])))
     = JSArray [JSString (str "A"); JSString (str "B"); JSString (str " hello ")]
  /\ qList (snd (unhashState (P := ref_platform)
                   (initial (published (P := ref_platform)
                               (game [] [str "A"; str "B"] [])))))
     = JSArray [JSString (str "A"); JSString (str "B")]
  /\ qList (run_calls (P := ref_platform)
              [CallAdd (JSString (str "A")); CallAdd (JSString (str "B"));
               CallAdd (JSString (str "C")); CallDelete 1]
              (initial []))
     = JSArray [JSString (str "A"); JSString (str "C")].
Proof.
  pose proof (question_order_preserved (P := ref_platform) (C := ref_contract)
                (str " hello ") [JSString (str "A"); JSString (str "B")]
                (JSString []) [] 1 [] [str "A"; str "B"]
                (initial (published (P := ref_platform)
                            (game [] [str "A"; str "B"] [])))
                valid_hello eq_refl) as [H1 [_ [H3 H4]]].
  split; [exact valid_hello | split; [exact H1 | split; [exact H3 | exact H4]]].
Defined.

(** C10 on a question with a space at either end. *)
Lemma qListAdd_verbatim_witness :
  valid_question (str " hello ")
  /\ fst (getQuestions
            (snd (qListAdd (P := ref_platform) (JSString (str " hello "))
                    (game [] [str "A"] []))))
     = Normal (JSArray [JSString (str "A"); JSString (str " hello ")]).
Proof.
  split; [exact valid_hello|].
  exact (proj2 (qListAdd_verbatim (P := ref_platform) (str " hello ")
                  [JSString (str "A")] (JSString []) [] valid_hello)).
Defined.

(* ================================================================= *)
(** * More properties of the class and of the page *)

Section ExtraStrings.

Lemma trimStart_pad w s : blank w = true -> trimStart (w ++ s) = trimStart s.
Proof.
  induction w as [|c w IH]; [reflexivity|]. cbn [blank forallb app trimStart].
  intros H. apply andb_prop in H as [H1 H2]. rewrite H1. now apply IH.
Qed.

Lemma trimStart_app_nonblank s w :
  blank s = false -> trimStart (s ++ w) = trimStart s ++ w.
Proof.
  induction s as [|c s IH]; [discriminate|]. cbn [blank forallb app trimStart].
  destruct (is_ws c); [|reflexivity]. cbn [andb]. exact IH.
Qed.

Lemma trimEnd_pad s w : blank w = true -> trimEnd (s ++ w) = trimEnd s.
Proof.
  intros B. unfold trimEnd. rewrite rev_app_distr.
  rewrite trimStart_pad; [reflexivity|]. now rewrite blank_rev.
Qed.

(** White space around a string does not change what [trim] returns. *)
Lemma trim_pad w1 s w2 :
  blank w1 = true -> blank w2 = true -> trim (w1 ++ s ++ w2) = trim s.
Proof.
  intros B1 B2. unfold trim. rewrite trimStart_pad by exact B1.
  destruct (blank s) eqn:Bs.
  - assert (E : trimStart (s ++ w2) = []).
    { apply trimStart_nil. rewrite blank_app, Bs, B2. reflexivity. }
    rewrite E. apply trimStart_nil in Bs. now rewrite Bs.
  - rewrite trimStart_app_nonblank by exact Bs. now apply trimEnd_pad.
Qed.

End ExtraStrings.

Section ExtraCalls.
Context `{P : Platform}.

(** X2.  White space added before and after the text of a question
    changes neither what [qListAdd] returns nor the word count. *)
Theorem qListAdd_padding (w1 s w2 : jsstring) (st : State) :
  blank w1 = true -> blank w2 = true ->
  fst (qListAdd (JSString (w1 ++ s ++ w2)) st) = fst (qListAdd (JSString s) st)
  /\ wordCount (w1 ++ s ++ w2) = wordCount s.
Proof.
  intros B1 B2. unfold qListAdd, wordCount. rewrite trim_pad by assumption.
  split; [|reflexivity].
  destruct (trim s) as [|c r]; [reflexivity|].
  destruct (20 <? _); [reflexivity|].
  unfold mbind, qList_push. destruct (qList st); reflexivity.
Qed.

(** X1.  When the list is not an array, as after decoding a fragment
    without a [list], adding a valid question and deleting throw a
    [TypeError] and leave the state as it was, [getQuestions] throws
    unless the list is a string, and [setGName] still works. *)
Theorem list_methods_need_array (st : State) (s : jsstring) (index : Z) :
  (forall l, qList st <> JSArray l) ->
  valid_question s ->
  qListAdd (JSString s) st = (Throw TypeError, st)
  /\ qListDelete index st = (Throw TypeError, st)
  /\ ((forall t, qList st <> JSString t) ->
      getQuestions st = (Throw TypeError, st))
  /\ setGName (JSString s) st
     = (Normal tt,
        {| qList := qList st; gName := JSString s;
           location_hash := assign_hash (encode (JSString s) (qList st)) |}).
Proof.
  intros NA V. apply valid_question_add in V as [T L].
  split; [|split; [|split]].
  - unfold qListAdd. destruct (trim s) as [|c r]; [contradiction|].
    rewrite L. unfold mbind, qList_push.
    destruct (qList st) as [| | | | |l|]; try reflexivity.
    exfalso. now apply (NA l).
  - unfold qListDelete, mbind, qList_splice.
    destruct (qList st) as [| | | | |l|]; try reflexivity.
    exfalso. now apply (NA l).
  - intros NS. unfold getQuestions.
    destruct (qList st) as [| | | |t|l|]; try reflexivity.
    + exfalso. now apply (NS t).
    + exfalso. now apply (NA l).
  - reflexivity.
Qed.

(** X3.  Setting the name commutes with adding a question and with
    deleting one, on every state and whether the other call succeeds,
    fails or throws; of two names set in a row the second one stays. *)
Theorem setGName_commutes (st : State) (name other item : JSValue)
  (index : Z) :
  run_call (run_call st (CallSetName name)) (CallAdd item)
  = run_call (run_call st (CallAdd item)) (CallSetName name)
  /\ run_call (run_call st (CallSetName name)) (CallDelete index)
     = run_call (run_call st (CallDelete index)) (CallSetName name)
  /\ run_call (run_call st (CallSetName other)) (CallSetName name)
     = run_call st (CallSetName name).
Proof.
  destruct st as [ql g h]. split; [|split; [|reflexivity]].
  - cbn [run_call]. unfold qListAdd.
    destruct item as [| | | |s| |]; try reflexivity.
    destruct (trim s) as [|ch r]; [reflexivity|].
    destruct (20 <? _); [reflexivity|].
    destruct ql; reflexivity.
  - cbn [run_call]. destruct ql; reflexivity.
Qed.
End ExtraCalls.

Section ExtraReload.
Context `{P : Platform}.

Lemma unhashState_hash st : location_hash (snd (unhashState st)) = location_hash st.
Proof.
  rewrite unhashState_eq.
  destruct (JSON_parse _) as [[| | | | | |]|e]; reflexivity.
Qed.

Lemma new_hostGame_hash hash : location_hash (snd (new_hostGame hash)) = hash.
Proof.
  unfold new_hostGame, mbind.
  pose proof (unhashState_hash (initial hash)) as H.
  destruct (unhashState (initial hash)) as [[r|e] st']; exact H.
Qed.

(** The state the constructor leaves is the one a reload gives. *)
Lemma new_hostGame_stable hash : reload_stable (snd (new_hostGame hash)).
Proof.
  unfold reload_stable. rewrite new_hostGame_hash.
  destruct (new_hostGame_returns hash) as [st' E]. now rewrite E.
Qed.

Lemma run_call_game title qs h c :
  names_are_strings [c] ->
  run_call (game title qs h) c = game title qs h
  \/ exists title' qs',
       run_call (game title qs h) c
       = game title' qs' (published (game title' qs' [])).
Proof.
  intros N. destruct c as [item|index|name]; cbn [run_call].
  - destruct item as [| | | |s| |]; try (left; reflexivity).
    destruct (valid_question_dec s) as [V|V].
    + right. exists title, (qs ++ [s]). unfold game.
      rewrite qListAdd_valid by exact V. cbn [snd].
      rewrite map_app. reflexivity.
    + left. now apply qListAdd_invalid.
  - right. exists title, (splice1 index qs). unfold game.
    rewrite qListDelete_eq. cbn [snd]. rewrite splice1_map. reflexivity.
  - inversion N as [|x y Hn _]; subst.
    destruct name as [| | | |n| |]; try contradiction.
    right. exists n, qs. reflexivity.
Qed.

Lemma map_JSString_inj (a b : list jsstring) :
  map JSString a = map JSString b -> a = b.
Proof.
  revert b. induction a as [|x a IH]; intros [|y b] E; try discriminate;
    [reflexivity|].
  cbn in E. injection E as -> E. f_equal. now apply IH.
Qed.

Lemma run_call_valid_game title qs h c :
  names_are_strings [c] -> Forall valid_question qs ->
  exists title' qs' h',
    run_call (game title qs h) c = game title' qs' h'
    /\ Forall valid_question qs'.
Proof.
  intros N F.
  assert (V : questions_valid (run_call (game title qs h) c)).
  { apply run_call_valid. now exists qs. }
  destruct (run_call_game title qs h c N) as [E|[t' [qs' E]]].
  - exists title, qs, h. auto.
  - exists t', qs', (published (game t' qs' [])). split; [exact E|].
    rewrite E in V. destruct V as [qs'' [Eq F'']]. cbn in Eq.
    injection Eq as Eq. apply map_JSString_inj in Eq. now subst qs''.
Qed.

Context `{C : !LZStringContract P}.

Lemma new_hostGame_of_published title qs h :
  new_hostGame (published (game title qs h))
  = (Normal tt, game title qs (published (game title qs h))).
Proof.
  unfold new_hostGame, mbind.
  rewrite (unhashState_published title qs _ h) by reflexivity.
  reflexivity.
Qed.

Lemma run_call_stable st c :
  names_are_strings [c] -> game_state st -> reload_stable st ->
  game_state (run_call st c) /\ reload_stable (run_call st c).
Proof.
  intros N [title [qs [h ->]]] S.
  destruct (run_call_game title qs h c N) as [E|[t' [qs' E]]]; rewrite E.
  - split; [now exists title, qs, h | exact S].
  - split; [now exists t', qs', (published (game t' qs' []))|].
    unfold reload_stable. cbn [game location_hash].
    apply new_hostGame_of_published.
Qed.

Lemma run_calls_stable cs :
  forall st, names_are_strings cs -> game_state st -> reload_stable st ->
    game_state (run_calls cs st) /\ reload_stable (run_calls cs st).
Proof.
  induction cs as [|c cs IH]; intros st N G S; [now split|].
  inversion N as [|x y Hc Hcs]; subst. cbn [run_calls fold_left].
  destruct (run_call_stable st c) as [G' S']; try assumption.
  { constructor; [exact Hc | constructor]. }
  now apply IH.
Qed.

(** X4.  In a session that starts from a title and a list of strings,
    with every name set a string, the state stays a title and a list
    of strings, and loading a page with the hash of the moment gives
    exactly the state of the moment. *)
Theorem session_reload_stable (hash : jsstring) (cs : list call) :
  game_state (snd (new_hostGame hash)) ->
  names_are_strings cs ->
  game_state (session hash cs)
  /\ new_hostGame (location_hash (session hash cs))
     = (Normal tt, session hash cs).
Proof.
  intros G N. unfold session.
  apply run_calls_stable; [exact N | exact G | apply new_hostGame_stable].
Qed.

Lemma run_calls_adds title qs :
  Forall valid_question qs ->
  forall acc,
    run_calls (map (fun q => CallAdd (JSString q)) qs)
      (game title acc (published (game title acc [])))
    = game title (acc ++ qs) (published (game title (acc ++ qs) [])).
Proof.
  induction 1 as [|q qs V F IH]; intros acc.
  - now rewrite app_nil_r.
  - cbn [map run_calls fold_left run_call]. unfold game at 1.
    rewrite qListAdd_valid by exact V. cbn [snd].
    change (fold_left run_call ?cs ?st) with (run_calls cs st).
    replace (acc ++ q :: qs) with ((acc ++ [q]) ++ qs)
      by (now rewrite <- app_assoc).
    rewrite <- IH. f_equal. unfold game. rewrite map_app. reflexivity.
Qed.

(** X5.  On a page without hash, setting the title and adding valid
    questions one by one gives that title and these questions in
    order, and a page loaded with the resulting hash has them. *)
Theorem build_and_reload (title : jsstring) (qs : list jsstring) :
  Forall valid_question qs ->
  let cs := CallSetName (JSString title)
            :: map (fun q => CallAdd (JSString q)) qs in
  session [] cs = game title qs (published (game title qs []))
  /\ new_hostGame (location_hash (session [] cs))
     = (Normal tt, game title qs (published (game title qs []))).
Proof.
  intros F cs.
  assert (E : session [] cs = game title qs (published (game title qs []))).
  { unfold session, cs. rewrite new_hostGame_empty.
    cbn [run_calls fold_left run_call].
    change (fold_left run_call ?c ?st) with (run_calls c st).
    change (snd (setGName (JSString title) (initial [])))
      with (game title [] (published (game title [] []))).
    now rewrite run_calls_adds. }
  split; [exact E|]. rewrite E. cbn [game location_hash].
  apply new_hostGame_of_published.
Qed.
End ExtraReload.

Section ExtraRevisions.
Context `{P : Platform}.

(** X6.  The two revisions of [#unhashState] do the same whenever
    [JSON.parse] returns [null] or a value that counts as true. *)
Theorem revisions_agree (st : State) (obj : JSValue) :
  JSON_parse (fragment_text st) = Normal obj ->
  ToBoolean obj = true \/ obj = JSNull ->
  Rev1.unhashState st = unhashState st.
Proof.
  intros E H. rewrite unhashState_eq.
  unfold Rev1.unhashState, parse_fragment, mbind, read, lift.
  unfold fragment_text in E. unfold fragment_text. rewrite E.
  destruct H as [T| ->]; [|reflexivity].
  rewrite T. destruct obj; try discriminate T; reflexivity.
Qed.

(** X7.  On a fragment whose text is a JSON value that counts as false
    and is not [null], such as [false], [0] or the empty string, the
    first revision reports [DecodeError] and empties the state, and the
    second reports success and leaves both fields [undefined]. *)
Theorem revisions_differ_on_falsy (st : State) (obj : JSValue) :
  JSON_parse (fragment_text st) = Normal obj ->
  ToBoolean obj = false -> obj <> JSNull -> obj <> JSUndefined ->
  Rev1.unhashState st = (Normal DecodeError, emptied st)
  /\ unhashState st
     = (Normal Success,
        {| qList := JSUndefined; gName := JSUndefined;
           location_hash := location_hash st |}).
Proof.
  intros E T N U. rewrite unhashState_eq.
  unfold Rev1.unhashState, parse_fragment, mbind, read, lift.
  unfold fragment_text in E. unfold fragment_text. rewrite E, T.
  split; [reflexivity|].
  destruct obj; try contradiction; try discriminate T; reflexivity.
Qed.
End ExtraRevisions.

Section ExtraPage.
Context `{P : Platform}.

Lemma with_host_same pg : with_host (host pg) pg = pg.
Proof. now destruct pg. Qed.

Lemma getQuestions_game title qs h :
  getQuestions (game title qs h)
  = (Normal (JSArray (map JSString qs)), game title qs h).
Proof. reflexivity. Qed.

Lemma render_host pg :
  host (snd (render pg)) = host pg /\ qrVis (snd (render pg)) = qrVis pg.
Proof.
  unfold render, genQR. destruct (qrVis pg) eqn:V; [now split|].
  cbn [host with_dom with_host]. unfold getQuestions.
  destruct (qList (host pg)) eqn:Q; cbn; try (now split).
  all: destruct (_ || _); cbn; now split.
Qed.

Lemma render_ok pg title qs h :
  host pg = game title qs h ->
  (qrVis pg = true -> qs <> [] /\ title <> []) ->
  page_ok (snd (render pg)).
Proof.
  intros H G. destruct pg as [st v d]. cbn [host qrVis] in *. subst st.
  exists title, qs, h. unfold render. cbn [qrVis]. destruct v.
  - destruct (G eq_refl) as [G1 G2]. cbn.
    repeat split; try assumption; discriminate.
  - cbn [host with_dom dom]. rewrite getQuestions_game. cbv iota beta.
    rewrite length_map.
    destruct ((List.length qs =? 0) || is_empty_string (gName (game title qs h)))
      eqn:E; cbn; repeat split; try discriminate; auto.
Qed.

Lemma qListAdd_cases s title qs h :
  (valid_question s
   /\ qListAdd (JSString s) (game title qs h)
      = (Normal Success, game title (qs ++ [s]) (published (game title (qs ++ [s]) []))))
  \/ (exists r, success r = false
      /\ qListAdd (JSString s) (game title qs h) = (Normal r, game title qs h)).
Proof.
  destruct (valid_question_dec s) as [V|V].
  - left. split; [exact V|]. unfold game at 1.
    rewrite qListAdd_valid by exact V. unfold game. now rewrite map_app.
  - right. unfold qListAdd.
    destruct (trim s) as [|c r] eqn:T; [now exists EmptyQuestionError|].
    destruct (20 <? wordCount s) eqn:L;
      [now exists (TooManyWordsError (wordCount s))|].
    exfalso. apply V. apply valid_question_add. rewrite T.
    split; [discriminate | exact L].
Qed.

Lemma possible_edit ev pg :
  page_ok pg -> possible ev pg = true -> ev <> ClickBack ->
  qrVis pg = false.
Proof.
  intros [t [qs [h [_ [E _]]]]] Hp Hn. rewrite <- E.
  destruct ev; cbn in Hp; try contradiction;
    try (apply andb_prop in Hp as [Hp _]); now apply negb_true_iff in Hp.
Qed.

Lemma indexed_nth {A} (l : list A) k x i start :
  nth_error (combine l (seq start (List.length l))) k = Some (x, i) ->
  i = start + k /\ nth_error l k = Some x.
Proof.
  revert k start. induction l as [|y l IH]; intros k start H.
  - destruct k; discriminate H.
  - destruct k as [|k]; cbn in H.
    + injection H as -> <-. split; [lia | reflexivity].
    + apply IH in H as [-> H]. split; [lia | exact H].
Qed.

Lemma handle_ok ev pg :
  page_ok pg -> possible ev pg = true -> page_ok (snd (handle ev pg)).
Proof.
  intros OK Hp.
  destruct ev as [text| | |text|k| |].
  - destruct OK as [t [qs [h OK]]]. exists t, qs, h. exact OK.
  - pose proof (possible_edit _ _ OK Hp ltac:(discriminate)) as V.
    destruct OK as [t [qs [h [Hh OK]]]]. cbn [handle]. unfold on_add.
    rewrite Hh.
    destruct (qListAdd_cases (questionInput_value (dom pg)) t qs h)
      as [[_ E]|[r [F E]]]; rewrite E.
    + cbn [success Success]. eapply render_ok; [reflexivity|].
      cbn [qrVis with_dom with_host]. rewrite V. discriminate.
    + rewrite F. cbn [snd]. rewrite <- Hh, with_host_same.
      exists t, qs, h. now split.
  - pose proof (possible_edit _ _ OK Hp ltac:(discriminate)) as V.
    destruct OK as [t [qs [h [Hh OK]]]]. cbn [handle]. unfold on_add.
    rewrite Hh.
    destruct (qListAdd_cases (questionInput_value (dom pg)) t qs h)
      as [[_ E]|[r [F E]]]; rewrite E.
    + cbn [success Success]. eapply render_ok; [reflexivity|].
      cbn [qrVis with_dom with_host]. rewrite V. discriminate.
    + rewrite F. cbn [snd]. rewrite <- Hh, with_host_same.
      exists t, qs, h. now split.
  - pose proof (possible_edit _ _ OK Hp ltac:(discriminate)) as V.
    destruct OK as [t [qs [h [Hh OK]]]]. cbn [handle]. unfold on_name_change.
    cbn [dom with_dom host nameInput_value set_nameInput_value]. rewrite Hh.
    change (setGName (JSString text) (game t qs h))
      with (Normal tt, game text qs (published (game text qs []))).
    eapply render_ok; [reflexivity|].
    cbn [qrVis with_dom with_host]. rewrite V. discriminate.
  - pose proof (possible_edit _ _ OK Hp ltac:(discriminate)) as V.
    destruct OK as [t [qs [h [Hh OK]]]]. cbn [handle].
    destruct (nth_error (listEl (dom pg)) k) as [[x index]|];
      [|exists t, qs, h; now split].
    unfold on_delete. rewrite Hh. unfold game at 1.
    rewrite qListDelete_eq, splice1_map.
    eapply render_ok.
    + cbn [host with_host]. unfold game. reflexivity.
    + cbn [qrVis with_host]. rewrite V. discriminate.
  - pose proof (possible_edit _ _ OK Hp ltac:(discriminate)) as V.
    destruct OK as [t [qs [h [Hh [E1 [E2 [Hedit Hqr]]]]]]].
    destruct (Hedit V) as [_ Hd].
    cbn in Hp. apply andb_prop in Hp as [_ Hp]. apply negb_true_iff in Hp.
    rewrite Hp in Hd. symmetry in Hd. apply orb_false_elim in Hd as [Hl Hn].
    cbn [handle]. unfold on_show_qr. rewrite Hh, getQuestions_game.
    cbv iota beta. rewrite length_map, Hl.
    eapply render_ok; [reflexivity|].
    intros _. split.
    + intros ->. discriminate Hl.
    + intros ->. discriminate Hn.
  - destruct OK as [t [qs [h [Hh OK]]]]. cbn [handle]. unfold on_back.
    eapply render_ok; [exact Hh|]. cbn [qrVis with_qrVis]. discriminate.
Qed.

Lemma run_events_ok evs :
  forall pg, page_ok pg -> all_possible evs pg = true ->
    page_ok (run_events evs pg).
Proof.
  induction evs as [|ev evs IH]; intros pg OK Hp; [exact OK|].
  cbn in Hp. apply andb_prop in Hp as [Hp1 Hp2].
  cbn [run_events fold_left]. apply IH; [now apply handle_ok | exact Hp2].
Qed.

Lemma load_ok hash d title qs h :
  snd (new_hostGame hash) = game title qs h -> page_ok (load hash d).
Proof.
  intros H. unfold load. eapply render_ok; [exact H|]. discriminate.
Qed.
End ExtraPage.

Section ExtraPageTheorems.
Context `{P : Platform}.

Lemma getQuestions_state st : snd (getQuestions st) = st.
Proof. unfold getQuestions. destruct (qList st); reflexivity. Qed.

(** Every listener changes the state by one call at most, with a string
    for the question or the name. *)
Lemma handle_host ev pg :
  host (snd (handle ev pg)) = host pg
  \/ exists c, names_are_strings [c]
              /\ host (snd (handle ev pg)) = run_call (host pg) c.
Proof.
  assert (Add : host (snd (on_add pg))
                = run_call (host pg)
                    (CallAdd (JSString (questionInput_value (dom pg))))).
  { unfold on_add. cbn [run_call].
    destruct (qListAdd _ (host pg)) as [[r|e] st]; [|reflexivity].
    destruct (success r); [|reflexivity].
    now rewrite (proj1 (render_host _)). }
  destruct ev as [text| | |text|k| |]; cbn [handle].
  - left. reflexivity.
  - right. eexists. split; [|exact Add]. repeat constructor.
  - right. eexists. split; [|exact Add]. repeat constructor.
  - right. exists (CallSetName (JSString text)). split; [repeat constructor|].
    unfold on_name_change. cbn [run_call].
    cbn [dom with_dom host nameInput_value set_nameInput_value].
    destruct (setGName _ (host pg)) as [[r|e] st]; [|reflexivity].
    now rewrite (proj1 (render_host _)).
  - destruct (nth_error (listEl (dom pg)) k) as [[x index]|];
      [|left; reflexivity].
    right. exists (CallDelete (Z.of_nat index)). split; [repeat constructor|].
    unfold on_delete. cbn [run_call].
    destruct (qListDelete _ (host pg)) as [[r|e] st]; [|reflexivity].
    now rewrite (proj1 (render_host _)).
  - left. unfold on_show_qr.
    pose proof (getQuestions_state (host pg)) as G.
    destruct (getQuestions (host pg)) as [[v|e] st]; cbn [snd] in G; subst st.
    + destruct v; try reflexivity.
      destruct (List.length elements =? 0); [reflexivity|].
      now rewrite (proj1 (render_host _)).
    + reflexivity.
  - left. unfold on_back. now rewrite (proj1 (render_host _)).
Qed.

Lemma load_host hash d : host (load hash d) = snd (new_hostGame hash).
Proof. unfold load. now rewrite (proj1 (render_host _)). Qed.

(** X9.  After any events that the document allowed when they
    happened, if the code page is showing then
    the game has a name and at least one question, the text of the
    code is the hash of the page, the edit page is hidden and the code
    page is not. *)
Theorem qr_page_gated (hash : jsstring) (d : DOM) (evs : list event) :
  game_state (snd (new_hostGame hash)) ->
  all_possible evs (load hash d) = true ->
  qrVis (run_events evs (load hash d)) = true ->
  exists title qs h,
    host (run_events evs (load hash d)) = game title qs h
    /\ qs <> [] /\ title <> []
    /\ qrContainer (dom (run_events evs (load hash d))) = Some h
    /\ editPage_hidden (dom (run_events evs (load hash d))) = true
    /\ qrPage_hidden (dom (run_events evs (load hash d))) = false.
Proof.
  intros [t0 [qs0 [h0 G]]] Hp V.
  pose proof (run_events_ok evs _ (load_ok hash d t0 qs0 h0 G) Hp) as OK.
  destruct OK as [t [qs [h [Hh [E1 [E2 [_ Hqr]]]]]]].
  destruct (Hqr V) as [N1 [N2 Q]].
  exists t, qs, h. rewrite E1, E2, V. repeat split; assumption.
Qed.

(** X10.  After any events that the document allowed when they
    happened, the delete button of the item at
    position [k] shows the question at position [k], carries the index
    [k], and a click on it removes exactly that question. *)
Theorem delete_button_removes_item (hash : jsstring) (d : DOM)
  (evs : list event) (k : nat) :
  game_state (snd (new_hostGame hash)) ->
  all_possible evs (load hash d) = true ->
  possible (ClickDelete k) (run_events evs (load hash d)) = true ->
  exists title qs h text,
    host (run_events evs (load hash d)) = game title qs h
    /\ nth_error qs k = Some text
    /\ nth_error (listEl (dom (run_events evs (load hash d)))) k
       = Some (JSString text, k)
    /\ qList (host (snd (handle (ClickDelete k)
                           (run_events evs (load hash d)))))
       = JSArray (map JSString (remove_at k qs)).
Proof.
  intros [t0 [qs0 [h0 G]]] Hp Hk.
  pose proof (run_events_ok evs _ (load_ok hash d t0 qs0 h0 G) Hp) as OK.
  set (pg := run_events evs (load hash d)) in *.
  pose proof (possible_edit _ _ OK Hk ltac:(discriminate)) as V.
  destruct OK as [t [qs [h [Hh [E1 [E2 [Hedit _]]]]]]].
  destruct (Hedit V) as [Hl _].
  cbn in Hk. apply andb_prop in Hk as [_ Hk]. apply Nat.ltb_lt in Hk.
  destruct (nth_error (listEl (dom pg)) k) as [[x index]|] eqn:N;
    [|apply nth_error_None in N; lia].
  pose proof N as N'. rewrite Hl in N'. unfold indexed in N'.
  apply indexed_nth in N' as [Hi Hx]. cbn in Hi. subst index.
  destruct (nth_error qs k) as [text|] eqn:Q.
  2:{ rewrite nth_error_map, Q in Hx. discriminate. }
  rewrite nth_error_map, Q in Hx. cbn in Hx. injection Hx as <-.
  exists t, qs, h, text.
  split; [exact Hh | split; [exact Q | split; [reflexivity|]]].
  cbn [handle]. rewrite N. unfold on_delete. rewrite Hh. unfold game at 1.
  rewrite qListDelete_eq. rewrite (proj1 (render_host _)).
  cbn [host with_host qList]. f_equal.
  rewrite splice1_map, splice1_remove_at. f_equal.
  assert (Hb : k < List.length qs) by (apply nth_error_Some; rewrite Q; discriminate).
  replace (Z.of_nat k <? 0)%Z with false by (symmetry; apply Z.ltb_ge; lia).
  f_equal. lia.
Qed.

(** X11.  After any events that the document allowed when they
    happened, while the edit page is showing
    the show button is disabled exactly when there is no question or
    no name. *)
Theorem show_button_reflects_state (hash : jsstring) (d : DOM)
  (evs : list event) :
  game_state (snd (new_hostGame hash)) ->
  all_possible evs (load hash d) = true ->
  qrVis (run_events evs (load hash d)) = false ->
  exists title qs h,
    host (run_events evs (load hash d)) = game title qs h
    /\ (showQRBtn_disabled (dom (run_events evs (load hash d))) = true
        <-> qs = [] \/ title = []).
Proof.
  intros [t0 [qs0 [h0 G]]] Hp V.
  pose proof (run_events_ok evs _ (load_ok hash d t0 qs0 h0 G) Hp) as OK.
  destruct OK as [t [qs [h [Hh [_ [_ [Hedit _]]]]]]].
  destruct (Hedit V) as [_ Hd]. exists t, qs, h. split; [exact Hh|].
  rewrite Hd. split.
  - intros H. apply orb_prop in H as [H|H].
    + left. destruct qs; [reflexivity | discriminate H].
    + right. destruct t; [reflexivity | discriminate H].
  - intros [-> | ->]; [reflexivity|]. apply orb_true_r.
Qed.

Context `{C : !LZStringContract P}.

Lemma run_call_preserved st c :
  names_are_strings [c] ->
  (exists title qs h, Forall valid_question qs /\ st = game title qs h) ->
  reload_stable st ->
  (exists title qs h,
      Forall valid_question qs /\ run_call st c = game title qs h)
  /\ reload_stable (run_call st c).
Proof.
  intros N [t [qs [h [F ->]]]] S. split.
  - destruct (run_call_valid_game t qs h c N F) as [t' [qs' [h' [E F']]]].
    now exists t', qs', h'.
  - apply run_call_stable; [exact N | now exists t, qs, h | exact S].
Qed.

(** X8.  On a page loaded with a title and valid questions, after any
    events in any order the state is a title and a list of valid
    questions, and loading a page with the hash of the moment gives
    exactly that state. *)
Theorem page_keeps_state_valid (hash : jsstring) (d : DOM)
  (evs : list event) :
  (exists title qs h,
      Forall valid_question qs /\ snd (new_hostGame hash) = game title qs h) ->
  (exists title qs h,
      Forall valid_question qs
      /\ host (run_events evs (load hash d)) = game title qs h)
  /\ new_hostGame (location_hash (host (run_events evs (load hash d))))
     = (Normal tt, host (run_events evs (load hash d))).
Proof.
  intros G.
  assert (I0 : (exists title qs h,
                   Forall valid_question qs
                   /\ host (load hash d) = game title qs h)
               /\ reload_stable (host (load hash d))).
  { rewrite load_host. split; [exact G | apply new_hostGame_stable]. }
  clear G. revert I0. generalize (load hash d) as pg.
  induction evs as [|ev evs IH]; intros pg I0; [exact I0|].
  cbn [run_events fold_left]. apply IH.
  destruct (handle_host ev pg) as [E|[c [N E]]]; rewrite E.
  - exact I0.
  - destruct I0 as [G S]. now apply run_call_preserved.
Qed.
End ExtraPageTheorems.

(* ================================================================= *)
(** ** These properties on concrete inputs, with the reference compressor *)

(** X1 on the state a fragment without list leaves. *)
Lemma list_methods_need_array_witness :
  qList (snd (new_hostGame (P := ref_platform)
                (35%N :: ref_compress title_only_text)))
  = JSUndefined
  /\ valid_question (str " hello ")
  /\ qListAdd (P := ref_platform) (JSString (str " hello "))
       (snd (new_hostGame (P := ref_platform)
               (35%N :: ref_compress title_only_text)))
     = (Throw TypeError,
        snd (new_hostGame (P := ref_platform)
               (35%N :: ref_compress title_only_text)))
  /\ qListDelete (P := ref_platform) 0
       (snd (new_hostGame (P := ref_platform)
               (35%N :: ref_compress title_only_text)))
     = (Throw TypeError,
        snd (new_hostGame (P := ref_platform)
               (35%N :: ref_compress title_only_text))).
Proof.
  split; [reflexivity | split; [exact valid_hello|]].
  assert (NA : forall l,
             qList (snd (new_hostGame (P := ref_platform)
                           (35%N :: ref_compress title_only_text)))
             <> JSArray l) by (intros l; discriminate).
  destruct (list_methods_need_array (P := ref_platform) _ (str " hello ") 0
              NA valid_hello) as [H1 [H2 _]].
  split; [exact H1 | exact H2].
Defined.

(** X2 on a question with spaces around it. *)
Lemma qListAdd_padding_witness :
  blank (str "  ") = true /\ blank (str " ") = true
  /\ fst (qListAdd (P := ref_platform)
            (JSString (str "  " ++ str "hello world" ++ str " ")) (initial []))
     = fst (qListAdd (P := ref_platform) (JSString (str "hello world"))
              (initial []))
  /\ wordCount (str "  " ++ str "hello world" ++ str " ") = 2.
Proof.
  split; [reflexivity | split; [reflexivity|]].
  destruct (qListAdd_padding (P := ref_platform) (str "  ")
              (str "hello world") (str " ") (initial []) eq_refl eq_refl)
    as [H1 H2].
  split; [exact H1 | rewrite H2; reflexivity].
Defined.

Lemma game_state_empty_page :
  game_state (snd (new_hostGame (P := ref_platform) [])).
Proof. exists [], [], []. reflexivity. Defined.

(** X4 on a session with a failed and a successful add. *)
Lemma session_reload_stable_witness :
  game_state (snd (new_hostGame (P := ref_platform) []))
  /\ names_are_strings
       [CallSetName (JSString (str "Quiz")); CallAdd (JSString (str "one two"));
        CallAdd (JSNumber (str "1")); CallDelete 7]
  /\ new_hostGame (P := ref_platform)
       (location_hash
          (session (P := ref_platform) []
             [CallSetName (JSString (str "Quiz"));
              CallAdd (JSString (str "one two"));
              CallAdd (JSNumber (str "1")); CallDelete 7]))
     = (Normal tt,
        session (P := ref_platform) []
          [CallSetName (JSString (str "Quiz"));
           CallAdd (JSString (str "one two"));
           CallAdd (JSNumber (str "1")); CallDelete 7]).
Proof.
  assert (N : names_are_strings
                [CallSetName (JSString (str "Quiz"));
                 CallAdd (JSString (str "one two"));
                 CallAdd (JSNumber (str "1")); CallDelete 7])
    by (repeat constructor).
  split; [exact game_state_empty_page | split; [exact N|]].
  exact (proj2 (session_reload_stable (P := ref_platform) (C := ref_contract)
                  [] _ game_state_empty_page N)).
Defined.

(** X5 on the end-to-end example of the specification. *)
Lemma build_and_reload_witness :
  Forall valid_question [str "What year did WWII end?"]
  /\ new_hostGame (P := ref_platform)
       (location_hash
          (session (P := ref_platform) []
             [CallSetName (JSString (str "Trivia Night"));
              CallAdd (JSString (str "What year did WWII end?"))]))
     = (Normal tt,
        game (str "Trivia Night") [str "What year did WWII end?"]
          (published (P := ref_platform)
             (game (str "Trivia Night") [str "What year did WWII end?"] []))).
Proof.
  assert (F : Forall valid_question [str "What year did WWII end?"])
    by (constructor; [exact valid_trivia | constructor]).
  split; [exact F|].
  exact (proj2 (build_and_reload (P := ref_platform) (C := ref_contract)
                  (str "Trivia Night") [str "What year did WWII end?"] F)).
Defined.

(** X6 on a page without hash. *)
Lemma revisions_agree_witness :
  JSON_parse (fragment_text (P := ref_platform) (initial [])) = Normal JSNull
  /\ Rev1.unhashState (P := ref_platform) (initial [])
     = unhashState (P := ref_platform) (initial []).
Proof.
  split; [reflexivity|].
  apply (revisions_agree (P := ref_platform) (initial []) JSNull);
    [reflexivity | right; reflexivity].
Defined.

(** X7 on a fragment that holds [false]. *)
Lemma revisions_differ_on_falsy_witness :
  JSON_parse (fragment_text (P := ref_platform)
                (initial (35%N :: ref_compress (str "false"))))
  = Normal (JSBool false)
  /\ Rev1.unhashState (P := ref_platform)
       (initial (35%N :: ref_compress (str "false")))
     = (Normal DecodeError, initial (35%N :: ref_compress (str "false")))
  /\ unhashState (P := ref_platform)
       (initial (35%N :: ref_compress (str "false")))
     = (Normal Success,
        {| qList := JSUndefined; gName := JSUndefined;
           location_hash := 35%N :: ref_compress (str "false") |}).
Proof.
  split; [reflexivity|].
  apply (revisions_differ_on_falsy (P := ref_platform)
           (initial (35%N :: ref_compress (str "false"))) (JSBool false));
    [reflexivity | reflexivity | discriminate | discriminate].
Defined.

Lemma valid_empty_page :
  exists title qs h,
    Forall valid_question qs
    /\ snd (new_hostGame (P := ref_platform) []) = game title qs h.
Proof. exists [], [], []. split; [constructor | reflexivity]. Defined.

(** X8 on a user who adds two questions, one of them blank, names the
    game, deletes and looks at the code. *)
Lemma page_keeps_state_valid_witness :
  (exists title qs h,
      Forall valid_question qs
      /\ snd (new_hostGame (P := ref_platform) []) = game title qs h)
  /\ new_hostGame (P := ref_platform)
       (location_hash
          (host (run_events (P := ref_platform)
                   [TypeQuestion (str "A"); ClickAdd; TypeQuestion (str "  ");
                    PressEnter; TypeQuestion (str "B"); PressEnter;
                    ChangeName (str "Quiz"); ClickDelete 0; ClickShowQR]
                   (load (P := ref_platform) [] empty_document))))
     = (Normal tt,
        host (run_events (P := ref_platform)
                [TypeQuestion (str "A"); ClickAdd; TypeQuestion (str "  ");
                 PressEnter; TypeQuestion (str "B"); PressEnter;
                 ChangeName (str "Quiz"); ClickDelete 0; ClickShowQR]
                (load (P := ref_platform) [] empty_document))).
Proof.
  split; [exact valid_empty_page|].
  exact (proj2 (page_keeps_state_valid (P := ref_platform) (C := ref_contract)
                  [] empty_document _ valid_empty_page)).
Defined.

(** X9 on a user who names the game, adds a question and shows the
    code. *)
Lemma qr_page_gated_witness :
  game_state (snd (new_hostGame (P := ref_platform) []))
  /\ all_possible (P := ref_platform)
       [ChangeName (str "Quiz"); TypeQuestion (str "A"); ClickAdd; ClickShowQR]
       (load (P := ref_platform) [] empty_document) = true
  /\ qrVis (run_events (P := ref_platform)
              [ChangeName (str "Quiz"); TypeQuestion (str "A"); ClickAdd;
               ClickShowQR]
              (load (P := ref_platform) [] empty_document)) = true
  /\ exists title qs h,
       host (run_events (P := ref_platform)
               [ChangeName (str "Quiz"); TypeQuestion (str "A"); ClickAdd;
                ClickShowQR]
               (load (P := ref_platform) [] empty_document))
       = game title qs h
       /\ qs <> [] /\ title <> []
       /\ qrContainer
            (dom (run_events (P := ref_platform)
                    [ChangeName (str "Quiz"); TypeQuestion (str "A"); ClickAdd;
                     ClickShowQR]
                    (load (P := ref_platform) [] empty_document)))
          = Some h.
Proof.
  split; [exact game_state_empty_page | split; [reflexivity | split;
    [reflexivity|]]].
  destruct (qr_page_gated (P := ref_platform) [] empty_document
              [ChangeName (str "Quiz"); TypeQuestion (str "A"); ClickAdd;
               ClickShowQR]
              game_state_empty_page eq_refl eq_refl)
    as [t [qs [h [H1 [H2 [H3 [H4 _]]]]]]].
  exists t, qs, h. repeat split; assumption.
Defined.

(** X10 on a user who adds A and B and clicks the first delete button. *)
Lemma delete_button_removes_item_witness :
  game_state (snd (new_hostGame (P := ref_platform) []))
  /\ all_possible (P := ref_platform)
       [TypeQuestion (str "A"); ClickAdd; TypeQuestion (str "B"); PressEnter]
       (load (P := ref_platform) [] empty_document) = true
  /\ possible (ClickDelete 0)
       (run_events (P := ref_platform)
          [TypeQuestion (str "A"); ClickAdd; TypeQuestion (str "B"); PressEnter]
          (load (P := ref_platform) [] empty_document)) = true
  /\ exists title qs h text,
       host (run_events (P := ref_platform)
               [TypeQuestion (str "A"); ClickAdd; TypeQuestion (str "B");
                PressEnter]
               (load (P := ref_platform) [] empty_document))
       = game title qs h
       /\ nth_error qs 0 = Some text
       /\ qList (host (snd (handle (P := ref_platform) (ClickDelete 0)
                              (run_events (P := ref_platform)
                                 [TypeQuestion (str "A"); ClickAdd;
                                  TypeQuestion (str "B"); PressEnter]
                                 (load (P := ref_platform) [] empty_document)))))
          = JSArray (map JSString (remove_at 0 qs)).
Proof.
  split; [exact game_state_empty_page | split; [reflexivity | split;
    [reflexivity|]]].
  destruct (delete_button_removes_item (P := ref_platform) [] empty_document
              [TypeQuestion (str "A"); ClickAdd; TypeQuestion (str "B");
               PressEnter] 0
              game_state_empty_page eq_refl eq_refl)
    as [t [qs [h [text [H1 [H2 [_ H4]]]]]]].
  exists t, qs, h, text. repeat split; assumption.
Defined.

(** X11 on a user who adds a question to a game without name. *)
Lemma show_button_reflects_state_witness :
  game_state (snd (new_hostGame (P := ref_platform) []))
  /\ all_possible (P := ref_platform)
       [TypeQuestion (str "A"); ClickAdd]
       (load (P := ref_platform) [] empty_document) = true
  /\ qrVis (run_events (P := ref_platform)
              [TypeQuestion (str "A"); ClickAdd]
              (load (P := ref_platform) [] empty_document)) = false
  /\ exists title qs h,
       host (run_events (P := ref_platform)
               [TypeQuestion (str "A"); ClickAdd]
               (load (P := ref_platform) [] empty_document))
       = game title qs h
       /\ (showQRBtn_disabled
             (dom (run_events (P := ref_platform)
                     [TypeQuestion (str "A"); ClickAdd]
                     (load (P := ref_platform) [] empty_document))) = true
           <-> qs = [] \/ title = []).
Proof.
  split; [exact game_state_empty_page | split; [reflexivity | split;
    [reflexivity|]]].
  exact (show_button_reflects_state (P := ref_platform) [] empty_document
           [TypeQuestion (str "A"); ClickAdd]
           game_state_empty_page eq_refl eq_refl).
Defined.
